(** * Verification model of the file-tree operations engine of
    mcp-filesystem-server: permission bits, chunked writes, the tree walk,
    duplicate detection and the directory watcher. *)

From Stdlib Require Import ZArith Bool List String Lia.
Import ListNotations.
Open Scope Z_scope.

(* ------------------------------------------------------------------ *)
(** ** JavaScript number bit operations *)

(** ToInt32 of an integral number: reduce modulo 2^32 and read the result
    as a signed 32-bit value. *)
Definition to_int32 (x : Z) : Z :=
  let u := x mod 2 ^ 32 in
  if u <? 2 ^ 31 then u else u - 2 ^ 32.

(** [a | b] and [a & b] on numbers: both operands go through ToInt32; the
    operation is then done on 32-bit two's complement values, which is
    [Z.lor]/[Z.land] on the sign-extended integers. *)
Definition js_bor (a b : Z) : Z := Z.lor (to_int32 a) (to_int32 b).
Definition js_band (a b : Z) : Z := Z.land (to_int32 a) (to_int32 b).

(** [Boolean(n)] for an integral number: false exactly for 0. *)
Definition js_Boolean (n : Z) : bool := negb (n =? 0).

(* ------------------------------------------------------------------ *)
(** ** src/operations/permissions.ts *)

Record Triple := mkTriple { read : bool; write : bool; execute : bool }.

Record FilePermissions :=
  mkPerms { owner : Triple; group : Triple; others : Triple }.

(** [modeToPermissions]: every flag is [Boolean(mode & mask)]. *)
Definition modeToPermissions (mode : Z) : FilePermissions :=
  {| owner := {| read := js_Boolean (js_band mode 256);      (* 0o400 *)
                 write := js_Boolean (js_band mode 128);     (* 0o200 *)
                 execute := js_Boolean (js_band mode 64) |}; (* 0o100 *)
     group := {| read := js_Boolean (js_band mode 32);       (* 0o40 *)
                 write := js_Boolean (js_band mode 16);      (* 0o20 *)
                 execute := js_Boolean (js_band mode 8) |};  (* 0o10 *)
     others := {| read := js_Boolean (js_band mode 4);       (* 0o4 *)
                  write := js_Boolean (js_band mode 2);      (* 0o2 *)
                  execute := js_Boolean (js_band mode 1) |} |}. (* 0o1 *)

(** One statement [if (flag) mode |= mask;]. *)
Definition or_if (flag : bool) (mask mode : Z) : Z :=
  if flag then js_bor mode mask else mode.

(** [permissionsToMode]: [let mode = 0] followed by the nine conditional
    [|=] statements, in source order. *)
Definition permissionsToMode (p : FilePermissions) : Z :=
  let mode := 0 in
  let mode := or_if p.(owner).(read) 256 mode in
  let mode := or_if p.(owner).(write) 128 mode in
  let mode := or_if p.(owner).(execute) 64 mode in
  let mode := or_if p.(group).(read) 32 mode in
  let mode := or_if p.(group).(write) 16 mode in
  let mode := or_if p.(group).(execute) 8 mode in
  let mode := or_if p.(others).(read) 4 mode in
  let mode := or_if p.(others).(write) 2 mode in
  let mode := or_if p.(others).(execute) 1 mode in
  mode.

(** The nine flags of a permission struct, with their masks, in source
    order. *)
Definition flag_masks (p : FilePermissions) : list (bool * Z) :=
  [(p.(owner).(read), 256); (p.(owner).(write), 128);
   (p.(owner).(execute), 64); (p.(group).(read), 32);
   (p.(group).(write), 16); (p.(group).(execute), 8);
   (p.(others).(read), 4); (p.(others).(write), 2);
   (p.(others).(execute), 1)].

(** Bitwise OR of the masks of the set flags. *)
Definition or_of_set_masks (p : FilePermissions) : Z :=
  fold_right (fun (fm : bool * Z) (acc : Z) => Z.lor (if fst fm then snd fm else 0) acc) 0
    (flag_masks p).

(** The calling process seen from the file [fs.chmod] acts on: whether
    it is privileged (root: CAP_FOWNER and CAP_FSETID), owns the file, has
    the file's group among its groups, whether the file is immutable and
    whether its file system is mounted read-only. *)
Record ChmodCtx := mkChmodCtx {
  cx_privileged : bool;
  cx_owner : bool;
  cx_in_group : bool;
  cx_immutable : bool;
  cx_read_only : bool }.

(** The kernel refuses the call: EROFS on a read-only file system, EPERM
    on an immutable file or for a caller that neither owns the file nor is
    privileged. *)
Definition chmod_refused (cx : ChmodCtx) : bool :=
  cx_read_only cx || cx_immutable cx ||
  negb (cx_privileged cx || cx_owner cx).

(** [fs.chmod(path, mode)]: Node accepts a uint32 mode (a range error
    otherwise); the kernel then refuses the call ([chmod_refused]) or
    replaces the twelve permission bits (mask 0o7777) of [st_mode], keeping
    the file-type bits, and clears the set-group-ID bit (0o2000) when the
    caller is unprivileged and not in the file's group.  [None] is the
    thrown error. *)
Definition chmod (cx : ChmodCtx) (old_st_mode new_mode : Z) : option Z :=
  if negb ((0 <=? new_mode) && (new_mode <? 2 ^ 32)) then None
  else if chmod_refused cx then None
  else
    let mode := Z.land new_mode 4095 in
    let mode := if cx_privileged cx || cx_in_group cx then mode
                else Z.land mode (Z.lnot 1024) in
    Some (Z.lor (Z.land old_st_mode (Z.lnot 4095)) mode).

(** [makeExecutable], from the successful [fs.stat]: the new [st_mode] of
    the file, [None] when the chmod call throws. *)
Definition makeExecutable (cx : ChmodCtx) (st_mode : Z) : option Z :=
  let newMode := js_bor st_mode 73 in (* 0o111 *)
  chmod cx st_mode newMode.

Definition mode_755 : FilePermissions :=
  {| owner := mkTriple true true true;
     group := mkTriple true false true;
     others := mkTriple true false true |}.

(* ------------------------------------------------------------------ *)
(** ** src/operations/streams.ts: [writeFileChunks] *)

(** A Node writable file stream: the bytes already handed to the file, the
    chunks still queued in its internal buffer, and its [highWaterMark]. *)
Record WriteStream := mkWS {
  ws_written : list Byte.byte;
  ws_buffer : list (list Byte.byte);
  ws_hwm : nat }.

Definition buffered_len (st : WriteStream) : nat :=
  List.length (List.concat (ws_buffer st)).

(** [createWriteStream(filePath)]: flags 'w', the file starts empty. *)
Definition createWriteStream (hwm : nat) : WriteStream := mkWS [] [] hwm.

(** [writeStream.write(chunk)]: the chunk is always queued; the result is
    [state.length < highWaterMark] after queueing ([false] asks the producer
    to wait for 'drain'). *)
Definition ws_write (chunk : list Byte.byte) (st : WriteStream)
  : WriteStream * bool :=
  let st' := mkWS (ws_written st) (ws_buffer st ++ [chunk]) (ws_hwm st) in
  (st', Nat.ltb (buffered_len st') (ws_hwm st)).

(** Background I/O: the file system completes the [k] oldest queued
    writes, in queue order. *)
Definition ws_progress (k : nat) (st : WriteStream) : WriteStream :=
  mkWS (ws_written st ++ List.concat (firstn k (ws_buffer st)))
       (skipn k (ws_buffer st)) (ws_hwm st).

(** [await once('drain')]: 'drain' is emitted when the queue has emptied. *)
Definition await_drain (st : WriteStream) : WriteStream :=
  ws_progress (List.length (ws_buffer st)) st.

(** [writeStream.end(cb)]: the callback runs after every queued write is
    done. *)
Definition ws_end (st : WriteStream) : WriteStream :=
  ws_progress (List.length (ws_buffer st)) st.

(** The [for await] loop.  [sched i] is how many queued writes the file
    system completes while the producer computes chunk [i]: an arbitrary
    interleaving of the event loop. *)
Fixpoint write_loop (sched : nat -> nat) (i : nat)
    (chunks : list (list Byte.byte)) (st : WriteStream) : WriteStream :=
  match chunks with
  | [] => st
  | chunk :: rest =>
      let st := ws_progress (sched i) st in
      let '(st', ok) := ws_write chunk st in
      let st'' := if ok then st' else await_drain st' in
      write_loop sched (S i) rest st''
  end.

(** [writeFileChunks]: the content of the destination file once the
    returned promise resolves. *)
Definition writeFileChunks (hwm : nat) (sched : nat -> nat)
    (chunks : list (list Byte.byte)) : list Byte.byte :=
  let writeStream := createWriteStream hwm in
  let writeStream := write_loop sched 0 chunks writeStream in
  ws_written (ws_end writeStream).

(* ------------------------------------------------------------------ *)
(** ** The file system seen by the engine *)

(** A node of the file tree, with the type its directory entry reports
    ([Dirent]): directories, regular files, symbolic links (absolute target)
    and other special files. *)
Set Warnings "-register-all".
Inductive node :=
| NDir (entries : list (string * node))
| NFile (content : string)
| NSymlink (target : list string)
| NOther.

(** Absolute paths as their components; [path.join(dir, name)] on the
    normalized paths the engine builds is [dir ++ [name]]. *)
Definition path := list string.

Definition path_join (dir : path) (name : string) : path := dir ++ [name].

(** [entry.isDirectory()] of a [Dirent]: the entry's own type, links are
    not followed. *)
Definition is_dir (n : node) : bool :=
  match n with NDir _ => true | _ => false end.

Fixpoint find_entry (x : string) (es : list (string * node)) : option node :=
  match es with
  | [] => None
  | (y, c) :: r => if String.eqb x y then Some c else find_entry x r
  end.

(** One step of the path resolution of the OS: a symbolic link restarts
    the resolution of its target followed by the rest of the path. *)
Inductive resolve_step :=
| RDone (r : option node)
| RMore (cur : node) (p : path).

Definition resolve_one (root cur : node) (p : path) : resolve_step :=
  match cur, p with
  | NSymlink t, _ => RMore root (t ++ p)
  | _, [] => RDone (Some cur)
  | NDir es, x :: rest =>
      match find_entry x es with
      | Some c => RMore c rest
      | None => RDone None
      end
  | _, _ :: _ => RDone None
  end.

(** Path resolution of the OS ([stat], [readdir], [open]): symbolic links
    are followed, also in the last component; [fuel] bounds the number of
    steps (ELOOP when exhausted). *)
Fixpoint resolve (fuel : nat) (root cur : node) (p : path) : option node :=
  match fuel with
  | O => None
  | S f =>
      match resolve_one root cur p with
      | RDone r => r
      | RMore c q => resolve f root c q
      end
  end.

Definition stat_fuel : nat := 64.

(** [fs.stat(p)]: the node [p] resolves to. *)
Definition stat (fs : node) (p : path) : option node :=
  resolve stat_fuel fs fs p.

(** Lookup below a node through real subdirectories only (no link is
    followed); used to state where the walk goes. *)
Fixpoint lookup_rel (n : node) (rel : list string) : option node :=
  match rel with
  | [] => Some n
  | x :: r =>
      match n with
      | NDir es =>
          match find_entry x es with
          | Some c => lookup_rel c r
          | None => None
          end
      | _ => None
      end
  end.

Fixpoint names_unique (l : list string) : bool :=
  match l with
  | [] => true
  | x :: r => negb (existsb (String.eqb x) r) && names_unique r
  end.

(** Directory listings have pairwise distinct names, at every level. *)
Fixpoint wf_node (n : node) : bool :=
  match n with
  | NDir es =>
      names_unique (map fst es) &&
      (fix go (es : list (string * node)) : bool :=
         match es with
         | [] => true
         | (_, c) :: r => wf_node c && go r
         end) es
  | _ => true
  end.

(* ------------------------------------------------------------------ *)
(** ** src/server.ts (utils): [getAllFiles] *)

Section Walk.

(** [entry.name.match(new RegExp(pattern))]: [None] when the pattern does
    not compile ([new RegExp] throws), otherwise whether it matches
    somewhere in the name. *)
Variable regex_test : string -> string -> option bool.

(** [pattern && !entry.name.match(new RegExp(pattern))]: an absent or
    empty pattern keeps every name. *)
Definition pattern_check (pat : option string) (name : string) : option bool :=
  match pat with
  | None => Some true
  | Some r => if String.eqb r "" then Some true else regex_test r name
  end.

(** [getAllFiles] below a directory node [n] at path [dir]: the entries are
    mapped in [readdir] order, subdirectories recursively (the [readdir] of
    [fullPath] lists the child's entries), and [Promise.all] rejects when
    one entry rejects. *)
Fixpoint getAllFiles_node (pat : option string) (dir : path) (n : node)
  : option (list path) :=
  match n with
  | NDir es =>
      (fix entries (es : list (string * node)) : option (list path) :=
         match es with
         | [] => Some []
         | (name, c) :: rest =>
             let fullPath := path_join dir name in
             let r :=
               if is_dir c then getAllFiles_node pat fullPath c
               else match pattern_check pat name with
                    | None => None
                    | Some false => Some []
                    | Some true => Some [fullPath]
                    end in
             match r, entries rest with
             | Some a, Some b => Some (a ++ b)
             | _, _ => None
             end
         end) es
  | _ => None (* ENOTDIR *)
  end.

(** [getAllFiles(dirPath, pattern)]: the first [readdir] resolves
    [dirPath]; it fails when that is missing or not a directory. *)
Definition getAllFiles (fs : node) (dirPath : path) (pat : option string)
  : option (list path) :=
  match stat fs dirPath with
  | Some n => getAllFiles_node pat dirPath n
  | None => None (* ENOENT *)
  end.

End Walk.

(** The result of one entry of the [entries.map] callback. *)
Definition entry_result (regex_test : string -> string -> option bool)
    (pat : option string) (dir : path) (name : string) (c : node)
  : option (list path) :=
  if is_dir c then getAllFiles_node regex_test pat (path_join dir name) c
  else match pattern_check regex_test pat name with
       | None => None
       | Some false => Some []
       | Some true => Some [path_join dir name]
       end.

(** Where the walk goes below a directory node [n] at path [dir]. *)
Definition walk_target regex_test (pat : option string) (n : node) (dir : path)
    (q : path) : Prop :=
  exists rel c, q = dir ++ rel /\ rel <> [] /\ lookup_rel n rel = Some c /\
    is_dir c = false /\ pattern_check regex_test pat (last rel EmptyString) = Some true.

(** Induction on nodes, with the hypothesis for every entry of a
    directory. *)
Section NodeInd.
Variable P : node -> Prop.
Hypothesis HDir : forall es, Forall (fun e => P (snd e)) es -> P (NDir es).
Hypothesis HFile : forall c, P (NFile c).
Hypothesis HLink : forall t, P (NSymlink t).
Hypothesis HOther : P NOther.

Fixpoint node_ind' (n : node) : P n :=
  match n with
  | NDir es =>
      HDir es
        ((fix go (es : list (string * node))
            : Forall (fun e => P (snd e)) es :=
            match es with
            | [] => Forall_nil _
            | e :: r =>
                Forall_cons e
                  (match e as e0 return P (snd e0) with
                   | (_, c) => node_ind' c
                   end) (go r)
            end) es)
  | NFile c => HFile c
  | NSymlink t => HLink t
  | NOther => HOther
  end.
End NodeInd.

(* ------------------------------------------------------------------ *)
(** ** JavaScript [Map]: insertion-ordered, one entry per key *)

Section JSMap.
Context {K V : Type} (eqb : K -> K -> bool).

(** [m.get(k)] *)
Fixpoint map_get (k : K) (m : list (K * V)) : option V :=
  match m with
  | [] => None
  | (k', v) :: r => if eqb k k' then Some v else map_get k r
  end.

(** [m.set(k, v)]: an existing key keeps its place, a new key goes last. *)
Fixpoint map_set (k : K) (v : V) (m : list (K * V)) : list (K * V) :=
  match m with
  | [] => [(k, v)]
  | (k', v') :: r => if eqb k k' then (k', v) :: r else (k', v') :: map_set k v r
  end.

(** [m.delete(k)] *)
Definition map_delete (k : K) (m : list (K * V)) : list (K * V) :=
  filter (fun e => negb (eqb k (fst e))) m.

(** [m.has(k)] *)
Definition map_has (k : K) (m : list (K * V)) : bool :=
  match map_get k m with Some _ => true | None => false end.
End JSMap.

(* ------------------------------------------------------------------ *)
(** ** src/operations/analysis.ts: [calculateHash], [findDuplicates] *)

(** The bytes a read stream delivers: a regular file (links followed),
    taken to be readable by the caller; opening a directory fails with
    EISDIR.  Special files are all [NOther] and taken as unreadable: the
    model does not cover devices that read (such as /dev/null), FIFOs
    whose open blocks, or regular files the caller may not read. *)
Definition read_content (fs : node) (p : path) : option string :=
  match stat fs p with
  | Some (NFile c) => Some c
  | _ => None
  end.

(** [stats.size] of [fs.stat]: the length of a regular file; the size the
    OS reports for other kinds is not modelled (0). *)
Definition stat_size (fs : node) (p : path) : option nat :=
  match stat fs p with
  | Some (NFile c) => Some (String.length c)
  | Some _ => Some 0%nat
  | None => None
  end.

Record DuplicateGroup := mkGroup {
  dg_hash : string;
  dg_size : nat;
  dg_files : list path }.

Section Duplicates.

(** [hash.digest('hex')] of sha256 over the bytes of a file. *)
Variable digest : string -> string.
Variable regex_test : string -> string -> option bool.

(** [calculateHash(filePath)]: the stream is fed through the hash; a
    stream error rejects. *)
Definition calculateHash (fs : node) (p : path) : option string :=
  match read_content fs p with
  | Some c => Some (digest c)
  | None => None
  end.

(** The first loop of [findDuplicates]:
    [hashMap.set(hash, [...(hashMap.get(hash) || []), file])]. *)
Fixpoint hash_files (fs : node) (hashMap : list (string * list path))
    (files : list path) : option (list (string * list path)) :=
  match files with
  | [] => Some hashMap
  | file :: rest =>
      match calculateHash fs file with
      | None => None
      | Some hash =>
          let existing :=
            match map_get String.eqb hash hashMap with
            | Some l => l
            | None => []
            end in
          hash_files fs (map_set String.eqb hash (existing ++ [file]) hashMap)
            rest
      end
  end.

(** The second loop: one group per entry with more than one file, its size
    from [fs.stat(files[0])]. *)
Fixpoint collect_groups (fs : node) (entries : list (string * list path))
  : option (list DuplicateGroup) :=
  match entries with
  | [] => Some []
  | (hash, files) :: rest =>
      if Nat.ltb 1 (List.length files) then
        match hd_error files with
        | None => None
        | Some file0 =>
            match stat_size fs file0, collect_groups fs rest with
            | Some size, Some gs => Some (mkGroup hash size files :: gs)
            | _, _ => None
            end
        end
      else collect_groups fs rest
  end.

(** [findDuplicates(dirPath)]: [None] when the promise rejects. *)
Definition findDuplicates (fs : node) (dirPath : path)
  : option (list DuplicateGroup) :=
  match getAllFiles regex_test fs dirPath None with
  | None => None
  | Some files =>
      match hash_files fs [] files with
      | None => None
      | Some hashMap => collect_groups fs hashMap
      end
  end.

(** The walked files whose digest is [h]. *)
Definition files_with_digest (fs : node) (h : string) (files : list path)
  : list path :=
  filter (fun f => match calculateHash fs f with
                   | Some h' => String.eqb h h'
                   | None => false
                   end) files.

End Duplicates.

(* ------------------------------------------------------------------ *)
(** ** FileWatcher (the watcher module of the repository) *)

Definition path_eqb (p q : path) : bool :=
  if list_eq_dec string_dec p q then true else false.

(** OS watch resources are numbered in creation order. *)
Definition handle := nat.

(** [eventType] passed by [fs.watch] to its listener. *)
Inductive WatchEventType := Rename | Change.

(** [FileChangeEvent.type]: ['add' | 'change' | 'unlink']. *)
Inductive ChangeType := Add | Modified | Unlink.

Record FileChangeEvent := mkEvent {
  ev_type : ChangeType;
  ev_path : path;
  ev_timestamp : Z }.

(** An open OS watch resource: its number, the watched directory and the
    [recursive] option. *)
Record OsWatch := mkOsWatch {
  ow_handle : handle;
  ow_dir : path;
  ow_recursive : bool }.

(** The [watchers] map of a [FileWatcher] and the OS watch resources
    currently open. *)
Record Watcher := mkWatcher {
  watchers : list (path * handle);
  os_open : list OsWatch;
  next_handle : handle }.

Definition new_watcher : Watcher := mkWatcher [] [] 0%nat.

(** A rejected call: [Error('Already watching directory: ...')], or the
    error [fs.watch] throws (missing directory, unsupported option). *)
Inductive watch_error := AlreadyWatching | OsWatchFailed.

(** A notification of the OS for one open watch resource. *)
Record Notification := mkNotification {
  nt_handle : handle;
  nt_type : WatchEventType;
  nt_filename : option string;
  nt_time : Z }.

Section FileWatcher.

(** Whether [fs.watch(dirPath, { recursive })] succeeds on the current file
    system. *)
Variable os_watch_ok : path -> bool -> bool.

(** [watchDirectory(dirPath, recursive)]: the new state and the outcome. *)
Definition watchDirectory (st : Watcher) (dirPath : path) (recursive : bool)
  : Watcher * option watch_error :=
  if map_has path_eqb dirPath (watchers st) then (st, Some AlreadyWatching)
  else if os_watch_ok dirPath recursive then
    let h := next_handle st in
    (mkWatcher (map_set path_eqb dirPath h (watchers st))
               (os_open st ++ [mkOsWatch h dirPath recursive]) (S h), None)
  else (st, Some OsWatchFailed).

(** [watcher.close()]: the OS resource is released. *)
Definition os_close (h : handle) (l : list OsWatch) : list OsWatch :=
  filter (fun w => negb (Nat.eqb (ow_handle w) h)) l.

(** [unwatchDirectory(dirPath)] *)
Definition unwatchDirectory (st : Watcher) (dirPath : path) : Watcher :=
  match map_get path_eqb dirPath (watchers st) with
  | Some h =>
      mkWatcher (map_delete path_eqb dirPath (watchers st))
                (os_close h (os_open st)) (next_handle st)
  | None => st
  end.

(** [closeAll()]: [for (const [dirPath] of this.watchers)] unwatches every
    key; the loop only deletes the entry it visits, so the live iteration
    visits the keys present when it starts, in order. *)
Definition closeAll (st : Watcher) : Watcher :=
  fold_left unwatchDirectory (map fst (watchers st)) st.

(** The listener given to [fs.watch] for [dirPath]. *)
Definition on_watch_event (dirPath : path) (eventType : WatchEventType)
    (filename : option string) (now : Z) : list FileChangeEvent :=
  match filename with
  | Some f =>
      if String.eqb f EmptyString then [] (* '' is falsy *)
      else [mkEvent (match eventType with Rename => Unlink | Change => Modified end)
                    (path_join dirPath f) now]
  | None => []
  end.

Fixpoint find_os_watch (h : handle) (l : list OsWatch) : option OsWatch :=
  match l with
  | [] => None
  | w :: r => if Nat.eqb (ow_handle w) h then Some w else find_os_watch h r
  end.

(** The events emitted for one OS notification: a closed resource calls no
    listener. *)
Definition deliver (st : Watcher) (n : Notification) : list FileChangeEvent :=
  match find_os_watch (nt_handle n) (os_open st) with
  | Some w => on_watch_event (ow_dir w) (nt_type n) (nt_filename n) (nt_time n)
  | None => []
  end.

(** States a [FileWatcher] reaches from its construction. *)
Inductive reachable : Watcher -> Prop :=
| reach_new : reachable new_watcher
| reach_watch st p r : reachable st -> reachable (fst (watchDirectory st p r))
| reach_unwatch st p : reachable st -> reachable (unwatchDirectory st p)
| reach_closeAll st : reachable st -> reachable (closeAll st).

End FileWatcher.

(* ------------------------------------------------------------------ *)
(** ** Concrete inputs *)

Section Concrete.
Local Open Scope string_scope.

(** A directory with a.txt = "X", b.txt = "X" and c.txt = "Y". *)
Definition fs_abc : node :=
  NDir [("dir", NDir [("a.txt", NFile "X"); ("b.txt", NFile "X");
                      ("c.txt", NFile "Y")])].

(** A directory [d] holding a subdirectory [sub] and a symbolic link [ln]
    to that subdirectory. *)
Definition fs_link : node :=
  NDir [("d", NDir [("sub", NDir [("f", NFile "x")]);
                    ("ln", NSymlink ["d"; "sub"])])].

End Concrete.


(* ------------------------------------------------------------------ *)
(** ** JavaScript strings *)

(** A JavaScript string as its UTF-16 code units. *)
Definition jstr := list Z.

Definition NL : Z := 10. (* '\n' *)

Definition cons_head (c : Z) (ps : list jstr) : list jstr :=
  match ps with
  | p :: r => (c :: p) :: r
  | [] => [[c]]
  end.

(** [s.split(sep)] for a one-unit separator: the pieces between the
    separators, [[""]] for the empty string. *)
Fixpoint js_split_unit (sep : Z) (s : jstr) : list jstr :=
  match s with
  | [] => [[]]
  | c :: r => if Z.eqb c sep then [] :: js_split_unit sep r
              else cons_head c (js_split_unit sep r)
  end.

(** The code units of [\s] (WhiteSpace and LineTerminator), which are also
    the ones [String.prototype.trim] removes. *)
Definition is_ws (c : Z) : bool :=
  existsb (Z.eqb c) [9; 10; 11; 12; 13; 32; 160; 5760; 8232; 8233; 8239; 8287;
                     12288; 65279]
  || ((8192 <=? c) && (c <=? 8202)).

(** [s.split(/\s+/)]: the greedy match at the first whitespace unit after
    the last cut consumes the whole run, so the pieces are the segments
    between maximal runs of whitespace, with an empty first (last) piece
    when [s] starts (ends) with whitespace, and [[""]] for [""]. *)
Fixpoint split_ws (s : jstr) : list jstr :=
  match s with
  | [] => [[]]
  | c :: r =>
      if is_ws c then
        match r with
        | d :: _ => if is_ws d then split_ws r else [] :: split_ws r
        | [] => [] :: split_ws r
        end
      else cons_head c (split_ws r)
  end.

Fixpoint trim_start (s : jstr) : jstr :=
  match s with
  | c :: r => if is_ws c then trim_start r else s
  | [] => []
  end.

(** [s.trim()] *)
Definition trim (s : jstr) : jstr := rev (trim_start (rev (trim_start s))).

(* ------------------------------------------------------------------ *)
(** ** src/operations/analysis.ts: [analyzeTextFile], [searchInFile] *)

Record TextAnalysis := mkTextAnalysis {
  lineCount : nat;
  wordCount : nat;
  charCount : nat;
  encoding : string;
  mimeType : string }.

(** [analyzeTextFile] on the decoded content of the file; [detected] is
    the result of [chardet.detectFile] and [mime] that of
    [mimeTypes.lookup] ([None] for [null] / [false]). *)
Definition analyzeTextFile (detected mime : option string) (content : jstr)
  : TextAnalysis :=
  let lines := js_split_unit NL content in
  let words := filter (fun w => Nat.ltb 0 (List.length w)) (split_ws content) in
  let enc := match detected with
             | Some e => if String.eqb e EmptyString then "unknown"%string else e
             | None => "unknown"%string
             end in
  {| lineCount := List.length lines;
     wordCount := List.length words;
     charCount := List.length content;
     encoding := enc;
     mimeType := match mime with
                 | Some m => m
                 | None => "application/octet-stream"%string
                 end |}.

(** [word.length > 0], the filter of [analyzeTextFile]'s words. *)
Definition word_nonempty (w : jstr) : bool := Nat.ltb 0 (List.length w).

(** Whether a content starts with whitespace (or is empty). *)
Definition ws_start (s : jstr) : bool :=
  match s with [] => true | d :: _ => is_ws d end.

Record SearchMatch := mkSearchMatch {
  sm_file : path;
  sm_line : nat;
  sm_content : jstr;
  sm_match : jstr }.

Section Search.
(** [line.match(pattern)]: [Some m] with [m = match[0]], [None] for
    [null] (a pattern without the sticky flag, so the call is pure). *)
Variable line_match : jstr -> option jstr.

(** [lines.forEach((line, index) => ...)] from [index = i]. *)
Fixpoint search_lines (file : path) (i : nat) (lines : list jstr)
  : list SearchMatch :=
  match lines with
  | [] => []
  | line :: rest =>
      match line_match line with
      | Some m => mkSearchMatch file (S i) line m :: search_lines file (S i) rest
      | None => search_lines file (S i) rest
      end
  end.

(** [searchInFile(filePath, pattern)] on the decoded content. *)
Definition searchInFile (file : path) (content : jstr) : list SearchMatch :=
  search_lines file 0 (js_split_unit NL content).
End Search.

(* ------------------------------------------------------------------ *)
(** ** src/operations/streams.ts: [transformLines] *)

Section TransformLines.
Variable transform : jstr -> jstr.

(** The [for await] loop over the decoded chunks: the values yielded and
    the final [remainder]. *)
Fixpoint transform_loop (remainder : jstr) (chunks : list jstr)
  : list jstr * jstr :=
  match chunks with
  | [] => ([], remainder)
  | chunk :: rest =>
      let lines := js_split_unit NL (remainder ++ chunk) in
      let remainder' := last lines [] in (* lines.pop() || '' *)
      let '(ys, r) := transform_loop remainder' rest in
      (map transform (removelast lines) ++ ys, r)
  end.

(** [transformLines(filePath, transform)]: every value the generator
    yields, in order. *)
Definition transformLines (chunks : list jstr) : list jstr :=
  let '(ys, remainder) := transform_loop [] chunks in
  ys ++ (match remainder with [] => [] | _ => [transform remainder] end).
End TransformLines.

(* ------------------------------------------------------------------ *)
(** ** src/server.ts (utils): [listWindowsDrives], [getFileStats] *)

(** [/^[A-Z]:$/.test(line)] *)
Definition is_drive_line (l : jstr) : bool :=
  match l with
  | [c; d] => (65 <=? c) && (c <=? 90) && (d =? 58)
  | _ => false
  end.

(** [listWindowsDrives()]: [stdout] is the output of
    [wmic logicaldisk get name], [None] when the command fails. *)
Definition listWindowsDrives (platform : string) (stdout : option jstr)
  : list jstr :=
  if negb (String.eqb platform "win32") then []
  else match stdout with
       | Some out =>
           filter is_drive_line (map trim (skipn 1 (js_split_unit NL out)))
       | None => []
       end.

(** The base-8 digits of a positive number, least significant first; the
    fuel covers every value below 8^32, in particular every uint32 mode. *)
Fixpoint octal_rev (fuel : nat) (n : Z) : list Z :=
  match fuel with
  | O => []
  | S f => if n =? 0 then [] else (n mod 8) :: octal_rev f (n / 8)
  end.

(** [n.toString(8)] for a nonnegative integer [n]. *)
Definition toString8 (n : Z) : jstr :=
  if n =? 0 then [48] else map (fun d => 48 + d) (rev (octal_rev 32 n)).

(** [s.slice(-3)] *)
Definition slice_last3 (s : jstr) : jstr := skipn (List.length s - 3) s.

(** The [mode] field of [getFileStats]:
    [stats.mode.toString(8).slice(-3)]. *)
Definition getFileStats_mode (st_mode : Z) : jstr :=
  slice_last3 (toString8 st_mode).

(** The octal digit [4r + 2w + x] of a permission triple. *)
Definition perm_digit (t : Triple) : Z :=
  (if read t then 4 else 0) + (if write t then 2 else 0) +
  (if execute t then 1 else 0).

(* ------------------------------------------------------------------ *)
(** ** src/operations/permissions.ts and src/tools/permissions.ts:
    [getPermissions], [setPermissions] and the tool handlers *)

(** The [st_mode] of the file, [None] when [fs.stat] fails. *)
Definition getPermissions (st_mode : option Z) : option FilePermissions :=
  match st_mode with
  | Some m => Some (modeToPermissions m)
  | None => None
  end.

(** [setPermissions]: the new [st_mode]; [None] is the [McpError] (a
    missing file, or a [chmod] the kernel refuses). *)
Definition setPermissions (cx : ChmodCtx) (st_mode : option Z) (p : FilePermissions)
  : option Z :=
  let mode := permissionsToMode p in
  match st_mode with
  | Some m => chmod cx m mode
  | None => None
  end.

(** The [set_permissions] tool: [setPermissions] then [getPermissions]. *)
Definition set_permissions_handler (cx : ChmodCtx) (st_mode : option Z)
    (p : FilePermissions) : option (Z * FilePermissions) :=
  match setPermissions cx st_mode p with
  | Some m' =>
      match getPermissions (Some m') with
      | Some q => Some (m', q)
      | None => None
      end
  | None => None
  end.

(** The [make_executable] tool: [makeExecutable] then [getPermissions]. *)
Definition make_executable_handler (cx : ChmodCtx) (st_mode : option Z)
  : option (Z * FilePermissions) :=
  match st_mode with
  | Some m =>
      match makeExecutable cx m with
      | Some m' =>
          match getPermissions (Some m') with
          | Some q => Some (m', q)
          | None => None
          end
      | None => None
      end
  | None => None
  end.

(** A permission struct with the three execute flags set. *)
Definition with_execute (p : FilePermissions) : FilePermissions :=
  {| owner := mkTriple (read (owner p)) (write (owner p)) true;
     group := mkTriple (read (group p)) (write (group p)) true;
     others := mkTriple (read (others p)) (write (others p)) true |}.

Definition triple_eqb (a b : Triple) : bool :=
  Bool.eqb (read a) (read b) && Bool.eqb (write a) (write b) &&
  Bool.eqb (execute a) (execute b).

Definition perms_eqb (p q : FilePermissions) : bool :=
  triple_eqb (owner p) (owner q) && triple_eqb (group p) (group q) &&
  triple_eqb (others p) (others q).

(* ------------------------------------------------------------------ *)
(** ** src/operations/streams.ts: [readFileChunks] *)



(* ================================================================== *)
(** * Proofs *)

(* ------------------------------------------------------------------ *)
(** ** Permission lemmas *)

Lemma testbit_73 (i : Z) :
  0 <= i -> Z.testbit 73 i = (i =? 0) || (i =? 3) || (i =? 6).
Proof.
  intros Hi. destruct (Z.lt_ge_cases i 7) as [Hlt | Hge].
  - assert (i = 0 \/ i = 1 \/ i = 2 \/ i = 3 \/ i = 4 \/ i = 5 \/ i = 6)
      as Hc by lia.
    destruct Hc as [-> | [-> | [-> | [-> | [-> | [-> | ->]]]]]]; reflexivity.
  - rewrite Z.bits_above_log2 by (cbn; lia).
    replace (i =? 0) with false by (symmetry; apply Z.eqb_neq; lia).
    replace (i =? 3) with false by (symmetry; apply Z.eqb_neq; lia).
    replace (i =? 6) with false by (symmetry; apply Z.eqb_neq; lia).
    reflexivity.
Qed.

Lemma lor_bound (a b : Z) :
  0 <= a < 2 ^ 16 -> 0 <= b < 2 ^ 16 -> Z.lor a b < 2 ^ 16.
Proof.
  intros Ha Hb.
  destruct (Z.eq_dec (Z.lor a b) 0) as [E | E]; [rewrite E; lia |].
  apply Z.log2_lt_pow2; [apply Z.le_neq; split; [apply Z.lor_nonneg; lia | congruence] |].
  rewrite Z.log2_lor by lia. apply Z.max_lub_lt.
  - destruct (Z.eq_dec a 0) as [->|]; [cbn; lia | apply Z.log2_lt_pow2; lia].
  - destruct (Z.eq_dec b 0) as [->|]; [cbn; lia | apply Z.log2_lt_pow2; lia].
Qed.

Lemma permissionsToMode_flags (p : FilePermissions) :
  permissionsToMode p = or_of_set_masks p.
Proof.
  destruct p as [[a b c] [d e f] [g h i]].
  destruct a, b, c, d, e, f, g, h, i; reflexivity.
Qed.

(** Claim C1: [modeToPermissions (permissionsToMode p) = p] for every
    permission struct; [permissionsToMode] is the OR of the masks of the set
    flags; mode 0o755 is owner rwx, group r-x, others r-x, and back. *)
Theorem permissions_roundtrip (p : FilePermissions) :
  modeToPermissions (permissionsToMode p) = p /\
  permissionsToMode p = or_of_set_masks p /\
  modeToPermissions 493 = mode_755 /\
  permissionsToMode (modeToPermissions 493) = 493.
Proof.
  split; [| split; [apply permissionsToMode_flags | split; reflexivity]].
  destruct p as [[a b c] [d e f] [g h i]].
  destruct a, b, c, d, e, f, g, h, i; reflexivity.
Qed.

Lemma chmod_spec cx old new :
  0 <= new < 2 ^ 32 ->
  chmod cx old new =
  if chmod_refused cx then None
  else Some (Z.lor (Z.land old (Z.lnot 4095))
                   (if cx_privileged cx || cx_in_group cx then Z.land new 4095
                    else Z.land (Z.land new 4095) (Z.lnot 1024))).
Proof.
  intros [Hlo Hhi]. unfold chmod.
  rewrite (proj2 (Z.leb_le 0 _) Hlo), (proj2 (Z.ltb_lt _ _) Hhi). reflexivity.
Qed.

Lemma chmod_bits (keep : bool) old new i :
  0 <= i ->
  Z.testbit (Z.lor (Z.land old (Z.lnot 4095))
                   (if keep then Z.land new 4095
                    else Z.land (Z.land new 4095) (Z.lnot 1024))) i =
  if i <? 12 then (if (i =? 10) && negb keep then false else Z.testbit new i)
  else Z.testbit old i.
Proof.
  intros Hi.
  assert (H4095 : Z.testbit 4095 i = (i <? 12)).
  { change 4095 with (Z.ones 12). rewrite Z.testbit_ones_nonneg by lia.
    destruct (Z.ltb_spec i 12); reflexivity. }
  assert (H1024 : Z.testbit 1024 i = (i =? 10)).
  { change 1024 with (2 ^ 10). rewrite Z.pow2_bits_eqb by lia.
    apply Z.eqb_sym. }
  destruct keep;
    rewrite Z.lor_spec, !Z.land_spec, ?Z.lnot_spec, H4095, ?H1024 by lia;
    destruct (i <? 12); cbn [negb andb orb];
    rewrite ?andb_false_r, ?andb_true_r, ?orb_false_l, ?orb_false_r; try reflexivity.
  destruct (i =? 10); cbn [negb]; rewrite ?andb_false_r, ?andb_true_r; reflexivity.
Qed.

Lemma chmod_lor73_bits (keep : bool) m i :
  0 <= i ->
  Z.testbit (Z.lor (Z.land m (Z.lnot 4095))
                   (if keep then Z.land (Z.lor m 73) 4095
                    else Z.land (Z.land (Z.lor m 73) 4095) (Z.lnot 1024))) i =
  if (i =? 0) || (i =? 3) || (i =? 6) then true
  else if (i =? 10) && negb keep then false
  else Z.testbit m i.
Proof.
  intros Hi. rewrite chmod_bits, Z.lor_spec, testbit_73 by lia.
  destruct (Z.ltb_spec i 12).
  - destruct ((i =? 0) || (i =? 3) || (i =? 6)) eqn:E.
    + destruct (Z.eqb_spec i 10) as [-> | Hne]; [discriminate E |].
      cbn [andb]. apply orb_true_r.
    + rewrite orb_false_r. reflexivity.
  - replace (i =? 0) with false by (symmetry; apply Z.eqb_neq; lia).
    replace (i =? 3) with false by (symmetry; apply Z.eqb_neq; lia).
    replace (i =? 6) with false by (symmetry; apply Z.eqb_neq; lia).
    replace (i =? 10) with false by (symmetry; apply Z.eqb_neq; lia).
    reflexivity.
Qed.

Lemma chmod_lor73_value (keep : bool) m :
  Z.lor (Z.land m (Z.lnot 4095))
        (if keep then Z.land (Z.lor m 73) 4095
         else Z.land (Z.land (Z.lor m 73) 4095) (Z.lnot 1024)) =
  if keep then Z.lor m 73 else Z.land (Z.lor m 73) (Z.lnot 1024).
Proof.
  apply Z.bits_inj'. intros i Hi.
  rewrite chmod_lor73_bits by exact Hi.
  assert (H1024 : Z.testbit 1024 i = (i =? 10)).
  { change 1024 with (2 ^ 10). rewrite Z.pow2_bits_eqb by lia.
    apply Z.eqb_sym. }
  destruct keep; rewrite ?Z.land_spec, ?Z.lnot_spec, ?H1024, Z.lor_spec, testbit_73 by lia;
    destruct ((i =? 0) || (i =? 3) || (i =? 6)) eqn:E;
    destruct (Z.eqb_spec i 10) as [-> | Hne]; cbn in E |- *;
    try discriminate E;
    rewrite ?andb_true_r, ?andb_false_r, ?orb_true_r, ?orb_false_r; reflexivity.
Qed.

(** Claim C9, as stated, fails: the [fs.stat] of a file the caller does
    not own succeeds but the chmod is refused (EPERM), and for a caller
    outside the file's group the kernel clears the set-group-ID bit, so
    mode 0o102644 becomes 0o100755, not 0o102755. *)
Lemma makeExecutable_refused_or_sgid_cleared :
  let not_owner := mkChmodCtx false false true false false in
  let owner_other_group := mkChmodCtx false true false false false in
  makeExecutable not_owner 33188 = None /\
  makeExecutable owner_other_group 34212 = Some 33261 /\
  Z.lor 34212 73 = 34285.
Proof. split; [| split]; reflexivity. Qed.

(** Claim C9 (amended): when [fs.stat] succeeds with a mode value [m] (a
    [st_mode], below 2^16), [makeExecutable] fails exactly when the kernel
    refuses the chmod (read-only file system, immutable file, or a caller
    that neither owns the file nor is privileged); otherwise the new mode
    is [m | 0o111]: the three execute bits are set and every other bit is
    that of [m], except the set-group-ID bit, which is cleared for an
    unprivileged caller outside the file's group. *)
Theorem makeExecutable_frame (cx : ChmodCtx) (m : Z) :
  0 <= m < 2 ^ 16 ->
  (makeExecutable cx m = None <-> chmod_refused cx = true) /\
  (chmod_refused cx = false ->
     makeExecutable cx m =
       Some (if cx_privileged cx || cx_in_group cx then Z.lor m 73
             else Z.land (Z.lor m 73) (Z.lnot 1024))) /\
  (forall m', makeExecutable cx m = Some m' ->
     forall i, 0 <= i ->
     Z.testbit m' i =
     if (i =? 0) || (i =? 3) || (i =? 6) then true
     else if (i =? 10) && negb (cx_privileged cx || cx_in_group cx) then false
     else Z.testbit m i).
Proof.
  intros Hm.
  assert (Hi : to_int32 m = m).
  { unfold to_int32. rewrite Z.mod_small by lia.
    destruct (Z.ltb_spec m (2 ^ 31)); lia. }
  assert (Hr : 0 <= Z.lor m 73 < 2 ^ 32).
  { split; [apply Z.lor_nonneg; lia |].
    apply (Z.lt_le_trans _ (2 ^ 16)); [| apply Z.pow_le_mono_r; lia].
    apply lor_bound; lia. }
  assert (He : makeExecutable cx m =
    if chmod_refused cx then None
    else Some (Z.lor (Z.land m (Z.lnot 4095))
                 (if cx_privileged cx || cx_in_group cx then Z.land (Z.lor m 73) 4095
                  else Z.land (Z.land (Z.lor m 73) 4095) (Z.lnot 1024)))).
  { unfold makeExecutable, js_bor. rewrite Hi. change (to_int32 73) with 73.
    apply chmod_spec. exact Hr. }
  split; [| split].
  - rewrite He. destruct (chmod_refused cx); split; congruence.
  - intros Hok. rewrite He, Hok, chmod_lor73_value. reflexivity.
  - intros m' Hm' i Hi0. rewrite He in Hm'.
    destruct (chmod_refused cx); [discriminate |]. injection Hm' as <-.
    apply chmod_lor73_bits. exact Hi0.
Qed.

(* ------------------------------------------------------------------ *)
(** ** Stream lemmas *)

Lemma ws_progress_content (k : nat) (st : WriteStream) :
  ws_written (ws_progress k st) ++ List.concat (ws_buffer (ws_progress k st)) =
  ws_written st ++ List.concat (ws_buffer st).
Proof.
  destruct st as [w b h]; simpl.
  rewrite <- app_assoc, <- concat_app, firstn_skipn. reflexivity.
Qed.

Lemma ws_progress_all (st : WriteStream) :
  ws_buffer (ws_progress (List.length (ws_buffer st)) st) = [].
Proof.
  destruct st as [w b h]; simpl. apply skipn_all.
Qed.

Lemma write_loop_content (sched : nat -> nat) (chunks : list (list Byte.byte)) :
  forall i st,
    ws_written (write_loop sched i chunks st) ++
    List.concat (ws_buffer (write_loop sched i chunks st)) =
    ws_written st ++ List.concat (ws_buffer st) ++ List.concat chunks.
Proof.
  induction chunks as [| c rest IH]; intros i st; cbn [write_loop].
  - simpl. rewrite app_nil_r. reflexivity.
  - destruct (ws_write c (ws_progress (sched i) st)) as [st' ok] eqn:E.
    assert (Hst' : ws_written st' ++ List.concat (ws_buffer st') =
                   ws_written st ++ List.concat (ws_buffer st) ++ c).
    { unfold ws_write in E. injection E as <- _. cbn [ws_written ws_buffer].
      pose proof (ws_progress_content (sched i) st) as Hp.
      rewrite concat_app. cbn [List.concat]. rewrite app_nil_r.
      rewrite (app_assoc (ws_written st)), <- Hp. apply app_assoc. }
    rewrite app_assoc in Hst'.
    rewrite IH, !app_assoc.
    destruct ok; [| unfold await_drain; rewrite ws_progress_content];
      rewrite Hst'; cbn [List.concat]; rewrite !app_assoc; reflexivity.
Qed.

Lemma length_concat_uniform (n : nat) (l : list (list Byte.byte)) :
  Forall (fun c => List.length c = n) l -> List.length (List.concat l) = (List.length l * n)%nat.
Proof.
  induction 1 as [| c l Hc _ IH]; simpl; [reflexivity |].
  rewrite length_app, Hc, IH. reflexivity.
Qed.

(** Claim C2: for every buffer size and every interleaving of the file
    system's progress, the destination file of [writeFileChunks] is the
    concatenation of the chunks in order; 1000 chunks of 1024 bytes give a
    file of exactly 1,024,000 bytes. *)
Theorem writeFileChunks_concat (hwm : nat) (sched : nat -> nat)
    (chunks : list (list Byte.byte)) :
  writeFileChunks hwm sched chunks = List.concat chunks /\
  (List.length chunks = 1000%nat -> Forall (fun c => List.length c = 1024%nat) chunks ->
   Z.of_nat (List.length (writeFileChunks hwm sched chunks)) = 1024000).
Proof.
  assert (H : writeFileChunks hwm sched chunks = List.concat chunks).
  { unfold writeFileChunks, ws_end.
    set (st := write_loop sched 0 chunks (createWriteStream hwm)).
    pose proof (ws_progress_content (List.length (ws_buffer st)) st) as Hc.
    rewrite ws_progress_all in Hc. cbn [List.concat] in Hc. rewrite !app_nil_r in Hc.
    rewrite Hc. unfold st. rewrite write_loop_content. reflexivity. }
  split; [exact H |].
  intros Hlen Hall. rewrite H, (length_concat_uniform 1024), Hlen by exact Hall.
  reflexivity.
Qed.

(* ------------------------------------------------------------------ *)
(** ** Tree walk lemmas *)

Lemma getAllFiles_node_cons regex_test pat dir name c rest :
  getAllFiles_node regex_test pat dir (NDir ((name, c) :: rest)) =
  match entry_result regex_test pat dir name c,
        getAllFiles_node regex_test pat dir (NDir rest) with
  | Some a, Some b => Some (a ++ b)
  | _, _ => None
  end.
Proof. reflexivity. Qed.

Lemma wf_node_cons name c rest :
  wf_node (NDir ((name, c) :: rest)) = true ->
  ~ In name (map fst rest) /\ wf_node c = true /\ wf_node (NDir rest) = true.
Proof.
  simpl. intros H.
  apply andb_prop in H as [H1 H2]. apply andb_prop in H1 as [Hn Hu].
  apply andb_prop in H2 as [Hc Hr].
  split; [| split; [exact Hc | rewrite Hu, Hr; reflexivity]].
  intros Hin. apply negb_true_iff in Hn.
  assert (existsb (String.eqb name) (map fst rest) = true) as Hex.
  { apply existsb_exists. exists name. split; [exact Hin | apply String.eqb_refl]. }
  congruence.
Qed.

Lemma find_entry_in x es c : find_entry x es = Some c -> In x (map fst es).
Proof.
  induction es as [| [y d] r IH]; simpl; [discriminate |].
  destruct (String.eqb_spec x y); [intros _; left; congruence |].
  intros H; right; auto.
Qed.

Lemma last_cons_ne {A} (x : A) r d : r <> [] -> last (x :: r) d = last r d.
Proof. destruct r; [contradiction | reflexivity]. Qed.

Lemma entry_result_spec regex_test pat dir name c a :
  (forall dir files, wf_node c = true ->
     getAllFiles_node regex_test pat dir c = Some files ->
     forall q, In q files <-> walk_target regex_test pat c dir q) ->
  wf_node c = true ->
  entry_result regex_test pat dir name c = Some a ->
  forall q, In q a <->
    exists rel c', q = dir ++ name :: rel /\ lookup_rel c rel = Some c' /\
      is_dir c' = false /\
      pattern_check regex_test pat (last (name :: rel) EmptyString) = Some true.
Proof.
  intros IH Hwf Ha q. unfold entry_result in Ha.
  destruct (is_dir c) eqn:Hd.
  - rewrite (IH _ _ Hwf Ha q). unfold walk_target, path_join. split.
    + intros (rel & c' & -> & Hne & Hl & Hc' & Hp).
      exists rel, c'. rewrite <- app_assoc, last_cons_ne by exact Hne. auto.
    + intros (rel & c' & -> & Hl & Hc' & Hp).
      assert (rel <> []) as Hne.
      { intros ->. simpl in Hl. congruence. }
      exists rel, c'. rewrite <- app_assoc, last_cons_ne in * by exact Hne.
      auto.
  - destruct (pattern_check regex_test pat name) as [[|]|] eqn:Hp;
      inversion Ha; subst a; simpl; split.
    + intros [<- | []]. exists [], c. unfold path_join. auto.
    + intros (rel & c' & -> & Hl & Hc' & Hp').
      destruct rel as [| x r]; [left; reflexivity |].
      destruct c; simpl in Hl, Hd; congruence.
    + intros [].
    + intros (rel & c' & -> & Hl & Hc' & Hp').
      destruct rel as [| x r]; [simpl in Hp'; congruence |].
      destruct c; simpl in Hl, Hd; congruence.
Qed.

Lemma getAllFiles_node_spec regex_test pat (n : node) :
  forall dir files, wf_node n = true ->
    getAllFiles_node regex_test pat dir n = Some files ->
    forall q, In q files <-> walk_target regex_test pat n dir q.
Proof.
  induction n as [es IHes | c | t |] using node_ind';
    intros dir files Hwf H; try discriminate.
  revert files Hwf H. induction es as [| [name c] rest IHrest];
    intros files Hwf H q.
  - inversion H; subst files. split; [intros [] |].
    intros (rel & c & _ & Hne & Hl & _).
    destruct rel as [| x r]; [contradiction | discriminate].
  - inversion IHes as [| ? ? IHc IHr]; subst.
    apply wf_node_cons in Hwf as (Hfresh & Hwc & Hwr).
    rewrite getAllFiles_node_cons in H.
    destruct (entry_result regex_test pat dir name c) as [a|] eqn:Ha;
      [| discriminate].
    destruct (getAllFiles_node regex_test pat dir (NDir rest)) as [b|] eqn:Hb;
      [| discriminate].
    inversion H; subst files.
    rewrite in_app_iff, (entry_result_spec _ _ _ _ _ _ IHc Hwc Ha q),
      (IHrest IHr b Hwr eq_refl q).
    unfold walk_target. split.
    + intros [(rel & c' & -> & Hl & Hc' & Hp) | (rel & c' & -> & Hne & Hl & Hc' & Hp)].
      * exists (name :: rel), c'. simpl. rewrite String.eqb_refl.
        repeat split; auto. discriminate.
      * exists rel, c'. repeat split; auto.
        destruct rel as [| x r]; [contradiction |]. simpl in Hl |- *.
        destruct (find_entry x rest) eqn:Hf; [| discriminate].
        destruct (String.eqb_spec x name) as [-> |]; [| exact Hl].
        apply find_entry_in in Hf. contradiction.
    + intros (rel & c' & -> & Hne & Hl & Hc' & Hp).
      destruct rel as [| x r]; [contradiction |]. simpl in Hl.
      destruct (String.eqb_spec x name) as [-> | Hxn].
      * left. exists r, c'. auto.
      * right. exists (x :: r), c'. repeat split; auto.
Qed.


(* ------------------------------------------------------------------ *)
(** ** Map lemmas *)

Section JSMapFacts.
Context {K V : Type} (eqb : K -> K -> bool).
Hypothesis eqb_spec : forall a b, reflect (a = b) (eqb a b).

Lemma map_get_set_eq k v (m : list (K * V)) :
  map_get eqb k (map_set eqb k v m) = Some v.
Proof.
  induction m as [| [k' v'] r IH]; simpl.
  - destruct (eqb_spec k k); congruence.
  - destruct (eqb_spec k k') as [-> |]; simpl.
    + destruct (eqb_spec k' k'); congruence.
    + destruct (eqb_spec k k'); [contradiction | exact IH].
Qed.

Lemma map_get_set_neq k k2 v (m : list (K * V)) :
  k2 <> k -> map_get eqb k2 (map_set eqb k v m) = map_get eqb k2 m.
Proof.
  intros Hne. induction m as [| [k' v'] r IH]; simpl.
  - destruct (eqb_spec k2 k); [contradiction | reflexivity].
  - destruct (eqb_spec k k') as [-> |]; simpl.
    + destruct (eqb_spec k2 k'); [contradiction | reflexivity].
    + destruct (eqb_spec k2 k'); [reflexivity | exact IH].
Qed.

Lemma map_set_keys k v (m : list (K * V)) k2 :
  In k2 (map fst (map_set eqb k v m)) <-> k2 = k \/ In k2 (map fst m).
Proof.
  induction m as [| [k' v'] r IH]; simpl.
  - split; [intros [<- | []] | intros [-> | []]]; auto.
  - destruct (eqb_spec k k') as [-> |]; simpl; [firstorder congruence |].
    rewrite IH. firstorder congruence.
Qed.

Lemma map_set_nodup k v (m : list (K * V)) :
  NoDup (map fst m) -> NoDup (map fst (map_set eqb k v m)).
Proof.
  induction m as [| [k' v'] r IH]; simpl; intros Hnd.
  - constructor; [intros [] | constructor].
  - inversion Hnd as [| ? ? Hni Hnd']; subst.
    destruct (eqb_spec k k') as [-> |]; simpl; constructor; auto.
    rewrite map_set_keys. intros [-> | Hin]; contradiction.
Qed.

Lemma map_get_in k v (m : list (K * V)) :
  map_get eqb k m = Some v -> In (k, v) m.
Proof.
  induction m as [| [k' v'] r IH]; simpl; [discriminate |].
  destruct (eqb_spec k k') as [-> |]; [intros [= ->]; left; reflexivity |].
  intros H; right; auto.
Qed.

Lemma in_map_get k v (m : list (K * V)) :
  NoDup (map fst m) -> In (k, v) m -> map_get eqb k m = Some v.
Proof.
  induction m as [| [k' v'] r IH]; simpl; [intros _ [] |].
  intros Hnd [[= -> ->] | Hin]; inversion Hnd as [| ? ? Hni Hnd']; subst.
  - destruct (eqb_spec k k); congruence.
  - destruct (eqb_spec k k') as [-> |]; [| auto].
    exfalso. apply Hni. apply (in_map fst) in Hin. exact Hin.
Qed.

Lemma map_get_none_keys k (m : list (K * V)) :
  map_get eqb k m = None -> ~ In k (map fst m).
Proof.
  induction m as [| [k' v'] r IH]; simpl; [auto |].
  destruct (eqb_spec k k'); [discriminate |].
  intros H [Heq | Hin]; [congruence | exact (IH H Hin)].
Qed.

Lemma map_delete_keys k (m : list (K * V)) k2 :
  In k2 (map fst (map_delete eqb k m)) <-> k2 <> k /\ In k2 (map fst m).
Proof.
  unfold map_delete. induction m as [| [k' v'] r IH]; simpl; [tauto |].
  destruct (eqb_spec k k') as [-> |]; simpl; rewrite IH; split.
  - intros [Hne Hin]; auto.
  - intros [Hne [-> | Hin]]; [contradiction | auto].
  - intros [-> | [Hne Hin]]; auto.
  - intros [Hne [-> | Hin]]; auto.
Qed.

Lemma map_delete_in k (m : list (K * V)) k2 v :
  In (k2, v) (map_delete eqb k m) <-> k2 <> k /\ In (k2, v) m.
Proof.
  unfold map_delete. rewrite filter_In. simpl.
  destruct (eqb_spec k k2); simpl; split; intros; intuition congruence.
Qed.

Lemma map_delete_nodup k (m : list (K * V)) :
  NoDup (map fst m) -> NoDup (map fst (map_delete eqb k m)).
Proof.
  unfold map_delete. induction m as [| [k' v'] r IH]; simpl; intros Hnd;
    [constructor |].
  inversion Hnd as [| ? ? Hni Hnd']; subst.
  destruct (eqb k k'); simpl; [auto |].
  constructor; [| auto]. intros Hin.
  apply (map_delete_keys k r k') in Hin as [_ Hin]. contradiction.
Qed.
End JSMapFacts.

(* ------------------------------------------------------------------ *)
(** ** Duplicate detection lemmas *)

Definition nonempty_opt {A} (l : list A) : option (list A) :=
  match l with [] => None | _ => Some l end.

Lemma files_with_digest_app digest fs h l1 l2 :
  files_with_digest digest fs h (l1 ++ l2) =
  files_with_digest digest fs h l1 ++ files_with_digest digest fs h l2.
Proof. unfold files_with_digest. apply filter_app. Qed.

Lemma files_with_digest_in digest fs h l f :
  In f (files_with_digest digest fs h l) <->
  In f l /\ calculateHash digest fs f = Some h.
Proof.
  unfold files_with_digest. rewrite filter_In.
  destruct (calculateHash digest fs f) as [h'|]; [| split; intuition congruence].
  destruct (String.eqb_spec h h'); split; intuition congruence.
Qed.

(** The hash map after the first loop maps every digest to the walked
    files with that digest, in walk order. *)
Definition hash_rep digest fs (m : list (string * list path)) (L : list path)
  : Prop :=
  NoDup (map fst m) /\
  forall h, map_get String.eqb h m = nonempty_opt (files_with_digest digest fs h L).

Lemma hash_files_cons digest fs m f rest :
  hash_files digest fs m (f :: rest) =
  match calculateHash digest fs f with
  | None => None
  | Some hash =>
      hash_files digest fs
        (map_set String.eqb hash
           (match map_get String.eqb hash m with Some l => l | None => [] end ++ [f]) m)
        rest
  end.
Proof. reflexivity. Qed.
Lemma hash_files_rep digest fs files :
  forall m L m', hash_rep digest fs m L ->
    hash_files digest fs m files = Some m' ->
    hash_rep digest fs m' (L ++ files).
Proof.
  induction files as [| f rest IH]; intros m L m' [Hnd Hget] H.
  - inversion H; subst. rewrite app_nil_r. split; assumption.
  - rewrite hash_files_cons in H.
    destruct (calculateHash digest fs f) as [h|] eqn:Hf; [| discriminate].
    assert (He : match map_get String.eqb h m with Some l => l | None => [] end
                 = files_with_digest digest fs h L).
    { rewrite Hget. destruct (files_with_digest digest fs h L); reflexivity. }
    rewrite He in H.
    replace (L ++ f :: rest) with ((L ++ [f]) ++ rest)
      by (rewrite <- app_assoc; reflexivity).
    eapply IH; [| exact H]. split.
    + apply map_set_nodup; [apply String.eqb_spec | exact Hnd].
    + intros h2. rewrite files_with_digest_app.
      assert (Hs : files_with_digest digest fs h2 [f] =
                   if String.eqb h2 h then [f] else []).
      { unfold files_with_digest, filter. rewrite Hf. reflexivity. }
      rewrite Hs.
      destruct (String.eqb_spec h2 h) as [Heq | Hne].
      * subst h2. rewrite map_get_set_eq by apply String.eqb_spec.
        destruct (files_with_digest digest fs h L); reflexivity.
      * rewrite map_get_set_neq by (apply String.eqb_spec || exact Hne).
        rewrite app_nil_r. apply Hget.
Qed.

Lemma collect_groups_nil fs : collect_groups fs [] = Some [].
Proof. reflexivity. Qed.

Lemma collect_groups_cons fs hash files rest :
  collect_groups fs ((hash, files) :: rest) =
  if Nat.ltb 1 (List.length files) then
    match hd_error files with
    | None => None
    | Some file0 =>
        match stat_size fs file0, collect_groups fs rest with
        | Some size, Some gs => Some (mkGroup hash size files :: gs)
        | _, _ => None
        end
    end
  else collect_groups fs rest.
Proof. reflexivity. Qed.

Lemma collect_groups_spec fs (m : list (string * list path)) :
  forall gs, collect_groups fs m = Some gs ->
  (forall g, In g gs ->
     In (dg_hash g, dg_files g) m /\ (1 < List.length (dg_files g))%nat /\
     exists f0 rest, dg_files g = f0 :: rest /\ stat_size fs f0 = Some (dg_size g)) /\
  (forall h l, In (h, l) m -> (1 < List.length l)%nat ->
     exists g, In g gs /\ dg_hash g = h) /\
  (forall h, In h (map dg_hash gs) -> In h (map fst m)) /\
  (NoDup (map fst m) -> NoDup (map dg_hash gs)).
Proof.
  induction m as [| [h l] r IH]; intros gs H;
    [rewrite collect_groups_nil in H | rewrite collect_groups_cons in H].
  - inversion H; subst gs. cbn [map In].
    split; [intros g0 [] | split; [intros h2 l2 [] | split; [intros h2 [] |]]].
    intros _. constructor.
  - destruct (Nat.ltb 1 (List.length l)) eqn:Hlt.
    + apply Nat.ltb_lt in Hlt.
      destruct l as [| f0 rest]; [cbn in Hlt; lia |].
      change (hd_error (f0 :: rest)) with (Some f0) in H. cbv beta iota in H.
      destruct (stat_size fs f0) as [size|] eqn:Hs; [| cbv beta iota in H; discriminate].
      destruct (collect_groups fs r) as [gs'|]; [| cbv beta iota in H; discriminate].
      cbv beta iota in H. injection H as <-.
      destruct (IH gs' eq_refl) as (H1 & H2 & H3 & H4).
      split; [| split; [| split]].
      * intros g0 [<- | Hg].
        -- cbn [dg_hash dg_files dg_size]. split; [left; reflexivity |].
           split; [exact Hlt |]. exists f0, rest. auto.
        -- destruct (H1 g0 Hg) as (Hin & Hlen & Hex).
           split; [right; exact Hin | auto].
      * intros h2 l2 [Heq | Hin] Hl2.
        -- injection Heq as <- <-. exists (mkGroup h size (f0 :: rest)).
           split; [left |]; reflexivity.
        -- destruct (H2 h2 l2 Hin Hl2) as (g0 & Hg0 & Hh).
           exists g0. split; [right |]; assumption.
      * cbn [map In fst dg_hash]. intros h2 [Heq | Hin]; [left; exact Heq | right; auto].
      * cbn [map fst dg_hash]. intros Hnd. inversion Hnd as [| ? ? Hni Hnd']; subst.
        constructor; auto.
    + destruct (IH gs H) as (H1 & H2 & H3 & H4).
      split; [| split; [| split]].
      * intros g0 Hg. destruct (H1 g0 Hg) as (Hin & Hrest).
        split; [right; exact Hin | exact Hrest].
      * intros h2 l2 [Heq | Hin] Hl2.
        -- injection Heq as <- <-. apply Nat.ltb_nlt in Hlt. lia.
        -- eauto.
      * cbn [map In fst]. intros h2 Hin. right. auto.
      * cbn [map fst]. intros Hnd. inversion Hnd; auto.
Qed.

Lemma nonempty_opt_some {A} (l x : list A) :
  nonempty_opt l = Some x -> x = l /\ l <> [].
Proof. destruct l; simpl; [discriminate | intros [= <-]; split; [reflexivity | discriminate]]. Qed.

Lemma findDuplicates_inv digest rt fs root groups files :
  findDuplicates digest rt fs root = Some groups ->
  getAllFiles rt fs root None = Some files ->
  exists m, hash_rep digest fs m files /\ collect_groups fs m = Some groups.
Proof.
  unfold findDuplicates. intros H Hf. rewrite Hf in H.
  destruct (hash_files digest fs [] files) as [m|] eqn:E; [| discriminate].
  exists m. split; [| exact H].
  apply (hash_files_rep digest fs files [] [] m); [| exact E].
  split; [constructor | intros h; reflexivity].
Qed.

Lemma findDuplicates_spec digest rt fs root groups files :
  findDuplicates digest rt fs root = Some groups ->
  getAllFiles rt fs root None = Some files ->
  NoDup (map dg_hash groups) /\
  (forall g, In g groups ->
     dg_files g = files_with_digest digest fs (dg_hash g) files /\
     (1 < List.length (dg_files g))%nat /\
     exists f0 rest, dg_files g = f0 :: rest /\ stat_size fs f0 = Some (dg_size g)) /\
  (forall h, (1 < List.length (files_with_digest digest fs h files))%nat ->
     exists g, In g groups /\ dg_hash g = h).
Proof.
  intros H Hf. destruct (findDuplicates_inv _ _ _ _ _ _ H Hf) as (m & [Hnd Hget] & Hc).
  destruct (collect_groups_spec fs m groups Hc) as (H1 & H2 & H3 & H4).
  split; [exact (H4 Hnd) |]. split.
  - intros g Hg. destruct (H1 g Hg) as (Hin & Hlen & Hex).
    apply (in_map_get String.eqb String.eqb_spec) in Hin; [| exact Hnd].
    rewrite Hget in Hin. apply nonempty_opt_some in Hin as [Heq _].
    split; [exact Heq | auto].
  - intros h Hlen. apply (H2 h (files_with_digest digest fs h files)); [| exact Hlen].
    apply (map_get_in String.eqb String.eqb_spec). rewrite Hget.
    destruct (files_with_digest digest fs h files); [simpl in Hlen; lia | reflexivity].
Qed.

Lemma calculateHash_content digest fs p h :
  calculateHash digest fs p = Some h ->
  exists c, read_content fs p = Some c /\ h = digest c.
Proof.
  unfold calculateHash. destruct (read_content fs p) as [c|]; [| discriminate].
  intros [= <-]. eauto.
Qed.

Lemma read_content_size fs p c :
  read_content fs p = Some c -> stat_size fs p = Some (String.length c).
Proof.
  unfold read_content, stat_size. destruct (stat fs p) as [[]|]; try discriminate.
  intros [= ->]. reflexivity.
Qed.

Lemma nodup_map_weaken {A B C} (f : A -> B) (g : A -> C) (l : list A) :
  NoDup (map f l) ->
  (forall x y, In x l -> In y l -> g x = g y -> f x = f y) ->
  NoDup (map g l).
Proof.
  induction l as [| a r IH]; simpl; intros Hnd Hinj; [constructor |].
  inversion Hnd as [| ? ? Hni Hnd']; subst. constructor.
  - intros Hin. apply in_map_iff in Hin as (y & Hy & Hyin).
    apply Hni. rewrite (Hinj a y); auto. apply in_map. exact Hyin.
  - apply IH; auto.
Qed.

Lemma files_with_digest_cons digest fs h f (r : list path) :
  files_with_digest digest fs h (f :: r) =
  if match calculateHash digest fs f with
     | Some h' => String.eqb h h'
     | None => false
     end
  then f :: files_with_digest digest fs h r
  else files_with_digest digest fs h r.
Proof. reflexivity. Qed.

Lemma files_with_digest_le1 digest fs h (l : list path) :
  NoDup (map (calculateHash digest fs) l) ->
  (List.length (files_with_digest digest fs h l) <= 1)%nat.
Proof.
  induction l as [| f r IH]; intros Hnd; [simpl; lia |].
  inversion Hnd as [| ? ? Hni Hnd']; subst.
  rewrite files_with_digest_cons.
  destruct (calculateHash digest fs f) as [h'|] eqn:Hf; [| auto].
  destruct (String.eqb_spec h h') as [<- |]; [| auto].
  destruct (files_with_digest digest fs h r) as [| p ps] eqn:E; [simpl; lia |].
  exfalso.
  assert (Hp : In p (files_with_digest digest fs h r)) by (rewrite E; left; reflexivity).
  apply files_with_digest_in in Hp as [Hpr Hph].
  apply Hni. rewrite <- Hph. apply in_map. exact Hpr.
Qed.

Lemma findDuplicates_abc digest rt :
  digest "X"%string <> digest "Y"%string ->
  findDuplicates digest rt fs_abc ["dir"%string] =
  Some [mkGroup (digest "X"%string) 1 [["dir"; "a.txt"]; ["dir"; "b.txt"]]%string].
Proof.
  intros Hne. unfold findDuplicates. cbn.
  repeat (cbn; match goal with
  | |- context [String.eqb ?a ?a] => rewrite String.eqb_refl
  | |- context [String.eqb ?a ?b] =>
      let E := fresh in
      destruct (String.eqb_spec a b) as [E | E]; [congruence |]
  end).
  reflexivity.
Qed.

(* ------------------------------------------------------------------ *)
(** ** Duplicate detection claims *)

(** Claim C3: [findDuplicates] emits exactly one group per digest held by
    two or more walked files (its members: those files, in walk order) and
    none for a digest held by one file; with no file, or with files of
    pairwise distinct content (no digest collision among them), the result
    is empty; on a.txt = "X", b.txt = "X", c.txt = "Y" it is the single group
    [a.txt; b.txt]. *)
Theorem findDuplicates_groups (digest : string -> string)
    (rt : string -> string -> option bool) :
  (forall fs root groups files,
     findDuplicates digest rt fs root = Some groups ->
     getAllFiles rt fs root None = Some files ->
     NoDup (map dg_hash groups) /\
     (forall h, (exists g, In g groups /\ dg_hash g = h) <->
                (2 <= List.length (files_with_digest digest fs h files))%nat) /\
     (forall g, In g groups ->
        dg_files g = files_with_digest digest fs (dg_hash g) files) /\
     (files = [] -> groups = []) /\
     (NoDup (map (read_content fs) files) ->
      (forall p q, In p files -> In q files ->
         calculateHash digest fs p = calculateHash digest fs q ->
         read_content fs p = read_content fs q) ->
      groups = [])) /\
  (digest "X"%string <> digest "Y"%string ->
   findDuplicates digest rt fs_abc ["dir"%string] =
   Some [mkGroup (digest "X"%string) 1
           [["dir"; "a.txt"]; ["dir"; "b.txt"]]%string]).
Proof.
  split; [| apply findDuplicates_abc].
  intros fs root groups files H Hf.
  destruct (findDuplicates_spec _ _ _ _ _ _ H Hf) as (Hnd & Hg & Hall).
  assert (Hiff : forall h, (exists g, In g groups /\ dg_hash g = h) <->
                 (2 <= List.length (files_with_digest digest fs h files))%nat).
  { intros h. split.
    - intros (g & Hin & <-). destruct (Hg g Hin) as (Heq & Hlen & _).
      rewrite <- Heq. lia.
    - intros Hlen. apply Hall. lia. }
  split; [exact Hnd |]. split; [exact Hiff |]. split.
  { intros g Hin. apply (Hg g Hin). }
  split.
  - intros ->. destruct groups as [| g gs]; [reflexivity | exfalso].
    assert (Hex : exists g0, In g0 (g :: gs) /\ dg_hash g0 = dg_hash g)
      by (exists g; split; [left |]; reflexivity).
    apply Hiff in Hex. simpl in Hex. lia.
  - intros Hdist Hcoll. destruct groups as [| g gs]; [reflexivity | exfalso].
    assert (Hex : exists g0, In g0 (g :: gs) /\ dg_hash g0 = dg_hash g)
      by (exists g; split; [left |]; reflexivity).
    apply Hiff in Hex.
    assert (Hle := files_with_digest_le1 digest fs (dg_hash g) files
                     (nodup_map_weaken _ _ _ Hdist Hcoll)).
    lia.
Qed.

(** Claim C4: every member of a group returned by [findDuplicates] has the
    group's digest; the group's size is the [stat] size of its first member;
    and, when no two walked files with equal digests differ in content (the
    premise the engine trusts), every member has that size. *)
Theorem findDuplicates_members_agree digest rt fs root groups files :
  findDuplicates digest rt fs root = Some groups ->
  getAllFiles rt fs root None = Some files ->
  forall g, In g groups ->
    (exists f0 rest, dg_files g = f0 :: rest /\ stat_size fs f0 = Some (dg_size g)) /\
    (forall f, In f (dg_files g) -> calculateHash digest fs f = Some (dg_hash g)) /\
    ((forall p q, In p files -> In q files ->
        calculateHash digest fs p = calculateHash digest fs q ->
        read_content fs p = read_content fs q) ->
     forall f, In f (dg_files g) -> stat_size fs f = Some (dg_size g)).
Proof.
  intros H Hf g Hin.
  destruct (findDuplicates_spec _ _ _ _ _ _ H Hf) as (_ & Hg & _).
  destruct (Hg g Hin) as (Heq & _ & (f0 & rest & Hfs & Hs)).
  assert (Hmem : forall f, In f (dg_files g) ->
            In f files /\ calculateHash digest fs f = Some (dg_hash g)).
  { intros f Hfin. rewrite Heq in Hfin. apply files_with_digest_in in Hfin. exact Hfin. }
  split; [eauto |]. split; [intros f Hfin; apply (Hmem f Hfin) |].
  intros Hcoll f Hfin.
  assert (H0 : In f0 (dg_files g)) by (rewrite Hfs; left; reflexivity).
  destruct (Hmem f Hfin) as [Hf1 Hh1]. destruct (Hmem f0 H0) as [Hf0 Hh0].
  assert (Hc := Hcoll f f0 Hf1 Hf0 (eq_trans Hh1 (eq_sym Hh0))).
  destruct (calculateHash_content _ _ _ _ Hh0) as (c & Hc0 & _).
  rewrite Hc0 in Hc. apply read_content_size in Hc, Hc0. congruence.
Qed.

(** Claim C10: the groups of one [findDuplicates] call are pairwise
    disjoint, and every path in a group is a file of the walk of the root. *)
Theorem findDuplicates_disjoint digest rt fs root groups files :
  findDuplicates digest rt fs root = Some groups ->
  getAllFiles rt fs root None = Some files ->
  (forall i j gi gj p,
     nth_error groups i = Some gi -> nth_error groups j = Some gj ->
     In p (dg_files gi) -> In p (dg_files gj) -> i = j) /\
  (forall g p, In g groups -> In p (dg_files g) -> In p files).
Proof.
  intros H Hf.
  destruct (findDuplicates_spec _ _ _ _ _ _ H Hf) as (Hnd & Hg & _).
  assert (Hmem : forall g p, In g groups -> In p (dg_files g) ->
            In p files /\ calculateHash digest fs p = Some (dg_hash g)).
  { intros g p Hin Hp. destruct (Hg g Hin) as (Heq & _).
    rewrite Heq in Hp. apply files_with_digest_in in Hp. exact Hp. }
  split.
  - intros i j gi gj p Hi Hj Hpi Hpj.
    destruct (Hmem gi p (nth_error_In _ _ Hi) Hpi) as [_ Hhi].
    destruct (Hmem gj p (nth_error_In _ _ Hj) Hpj) as [_ Hhj].
    rewrite Hhi in Hhj. injection Hhj as Hh.
    apply (proj1 (NoDup_nth_error (map dg_hash groups)) Hnd).
    + rewrite length_map. apply nth_error_Some. congruence.
    + rewrite !nth_error_map, Hi, Hj. simpl. congruence.
  - intros g p Hin Hp. apply (Hmem g p Hin Hp).
Qed.

(* ------------------------------------------------------------------ *)
(** ** Tree walk claims *)

(** Claim C5, as stated, fails: in a directory [d] with a subdirectory
    [sub] (holding [f]) and a symbolic link [ln] to [sub], the walk of [d]
    yields [d/ln], which [stat] reports as a directory, and it does not
    yield [d/ln/f], a file reachable through that link. *)
Lemma getAllFiles_yields_link_to_directory :
  getAllFiles (fun _ _ => None) fs_link ["d"%string] None =
    Some [["d"; "sub"; "f"]; ["d"; "ln"]]%string /\
  stat fs_link ["d"; "ln"]%string = Some (NDir [("f", NFile "x")])%string /\
  stat fs_link ["d"; "ln"; "f"]%string = Some (NFile "x")%string.
Proof. split; [| split]; reflexivity. Qed.

(** Claim C5 (amended): when the walk of an existing directory [root]
    succeeds, it yields exactly the paths [root/rel] reached from [root]
    through real subdirectories (directory entries of type directory; links
    are not followed) whose own entry type is not directory (regular files,
    symbolic links, including links to directories, and special files),
    and, when a pattern is given, whose basename matches it; every real
    subdirectory is descended whatever its name. *)
Theorem getAllFiles_spec rt fs root pat n files :
  stat fs root = Some n -> wf_node n = true ->
  getAllFiles rt fs root pat = Some files ->
  is_dir n = true /\
  (forall q, In q files <->
     exists rel c, q = root ++ rel /\ rel <> [] /\ lookup_rel n rel = Some c /\
       is_dir c = false /\ pattern_check rt pat (last rel EmptyString) = Some true).
Proof.
  intros Hs Hwf H. unfold getAllFiles in H. rewrite Hs in H.
  split; [destruct n; try discriminate; reflexivity |].
  exact (getAllFiles_node_spec rt pat n root files Hwf H).
Qed.

(* ------------------------------------------------------------------ *)
(** ** FileWatcher invariants *)

Lemma path_eqb_spec p q : reflect (p = q) (path_eqb p q).
Proof.
  unfold path_eqb. destruct (list_eq_dec string_dec p q); constructor; auto.
Qed.

Lemma map_has_keys (m : list (path * handle)) p :
  map_has path_eqb p m = true <-> In p (map fst m).
Proof.
  unfold map_has. destruct (map_get path_eqb p m) as [h |] eqn:E.
  - split; intros _; [| reflexivity].
    apply (map_get_in path_eqb path_eqb_spec) in E. exact (in_map fst _ _ E).
  - split; intros H; [discriminate |].
    exfalso. exact (map_get_none_keys path_eqb path_eqb_spec p m E H).
Qed.

Lemma map_set_fresh (m : list (path * handle)) p h :
  ~ In p (map fst m) -> map_set path_eqb p h m = m ++ [(p, h)].
Proof.
  induction m as [| [k v] r IH]; simpl; intros Hni; [reflexivity |].
  destruct (path_eqb_spec p k) as [-> |]; [exfalso; auto |].
  rewrite IH by auto. reflexivity.
Qed.

Lemma keys_unique (m : list (path * handle)) k v1 v2 :
  NoDup (map fst m) -> In (k, v1) m -> In (k, v2) m -> v1 = v2.
Proof.
  intros Hnd H1 H2.
  apply (in_map_get path_eqb path_eqb_spec) in H1, H2; auto. congruence.
Qed.

Lemma nodup_map_filter {A B} (f : A -> B) g (l : list A) :
  NoDup (map f l) -> NoDup (map f (filter g l)).
Proof.
  induction l as [| a r IH]; simpl; intros Hnd; [constructor |].
  inversion Hnd as [| ? ? Hni Hnd']; subst.
  destruct (g a); simpl; [| auto].
  constructor; [| auto]. intros Hin. apply Hni.
  apply in_map_iff in Hin as [x [Hx Hin]]. apply filter_In in Hin as [Hin _].
  rewrite <- Hx. apply in_map. exact Hin.
Qed.

Lemma nodup_map_inj {A B} (f : A -> B) (l : list A) a1 a2 :
  NoDup (map f l) -> In a1 l -> In a2 l -> f a1 = f a2 -> a1 = a2.
Proof.
  induction l as [| a r IH]; simpl; [tauto |].
  intros Hnd H1 H2 Hf. inversion Hnd as [| ? ? Hni Hnd']; subst.
  destruct H1 as [<- | H1], H2 as [<- | H2]; auto.
  - exfalso. apply Hni. rewrite Hf. apply in_map. exact H2.
  - exfalso. apply Hni. rewrite <- Hf. apply in_map. exact H1.
Qed.

Lemma nodup_snoc {A} (l : list A) x : NoDup l -> ~ In x l -> NoDup (l ++ [x]).
Proof.
  induction l as [| a r IH]; simpl; intros Hnd Hni.
  - constructor; [intros [] | constructor].
  - inversion Hnd as [| ? ? Hna Hnd']; subst. constructor.
    + rewrite in_app_iff. intros [Hin | [-> | []]]; auto.
    + apply IH; auto.
Qed.

Lemma find_os_watch_in h l w :
  find_os_watch h l = Some w -> In w l /\ ow_handle w = h.
Proof.
  induction l as [| w' r IH]; simpl; [discriminate |].
  destruct (Nat.eqb_spec (ow_handle w') h); [intros [= <-]; auto |].
  intros H. apply IH in H as [? ?]. auto.
Qed.

Lemma find_os_watch_unique l w :
  NoDup (map ow_handle l) -> In w l -> find_os_watch (ow_handle w) l = Some w.
Proof.
  intros Hnd Hin.
  assert (Hex : exists w', find_os_watch (ow_handle w) l = Some w').
  { clear Hnd. induction l as [| w' r IH]; simpl in *; [contradiction |].
    destruct (Nat.eqb_spec (ow_handle w') (ow_handle w)); [eauto |].
    destruct Hin as [<- | Hin]; [congruence | auto]. }
  destruct Hex as [w' Hw']. rewrite Hw'.
  apply find_os_watch_in in Hw' as [Hin' Hh].
  f_equal. exact (nodup_map_inj ow_handle l w' w Hnd Hin' Hin Hh).
Qed.

(** The invariant of a [FileWatcher]: one handle per watched path, the
    registered handles are exactly the open OS resources, handle numbers
    are distinct and below the next number. *)
Definition watcher_inv (st : Watcher) : Prop :=
  NoDup (map fst (watchers st)) /\
  (forall d h, In (d, h) (watchers st) ->
     exists r, In (mkOsWatch h d r) (os_open st)) /\
  (forall w, In w (os_open st) -> In (ow_dir w, ow_handle w) (watchers st)) /\
  NoDup (map ow_handle (os_open st)) /\
  (forall w, In w (os_open st) -> (ow_handle w < next_handle st)%nat).

Lemma watcher_inv_new : watcher_inv new_watcher.
Proof.
  repeat split; cbn; try tauto; constructor.
Qed.

Lemma watcher_inv_watch ok st p r :
  watcher_inv st -> watcher_inv (fst (watchDirectory ok st p r)).
Proof.
  intros (Hnd & Hreg & Hopen & Hhnd & Hlt). unfold watchDirectory.
  destruct (map_has path_eqb p (watchers st)) eqn:Hhas;
    [exact (conj Hnd (conj Hreg (conj Hopen (conj Hhnd Hlt)))) |].
  destruct (ok p r); [| exact (conj Hnd (conj Hreg (conj Hopen (conj Hhnd Hlt))))].
  assert (Hni : ~ In p (map fst (watchers st))).
  { intros Hin. apply map_has_keys in Hin. congruence. }
  unfold watcher_inv. cbn [fst watchers os_open next_handle].
  rewrite (map_set_fresh _ _ _ Hni).
  repeat split.
  - rewrite map_app. cbn.
    apply nodup_snoc; assumption.
  - intros d h Hin. apply in_app_or in Hin as [Hin | [[= <- <-] | []]].
    + destruct (Hreg d h Hin) as [r' Hr']. exists r'. apply in_or_app. auto.
    + exists r. apply in_or_app. right. left. reflexivity.
  - intros w Hin. apply in_app_or in Hin as [Hin | [<- | []]].
    + apply in_or_app. auto.
    + apply in_or_app. right. left. reflexivity.
  - rewrite map_app. cbn.
    apply nodup_snoc; [exact Hhnd |]. intros Hin. apply in_map_iff in Hin as [w [Hw Hin]].
    specialize (Hlt w Hin). lia.
  - intros w Hin. apply in_app_or in Hin as [Hin | [<- | []]].
    + specialize (Hlt w Hin). lia.
    + cbn. lia.
Qed.

Lemma watcher_inv_unwatch st p :
  watcher_inv st -> watcher_inv (unwatchDirectory st p).
Proof.
  intros Hinv. pose proof Hinv as (Hnd & Hreg & Hopen & Hhnd & Hlt).
  unfold unwatchDirectory.
  destruct (map_get path_eqb p (watchers st)) as [h |] eqn:Hget; [| exact Hinv].
  apply (map_get_in path_eqb path_eqb_spec) in Hget.
  unfold watcher_inv, os_close. cbn [watchers os_open next_handle]. repeat split.
  - exact (map_delete_nodup path_eqb path_eqb_spec p _ Hnd).
  - intros d h' Hin.
    apply (map_delete_in path_eqb path_eqb_spec) in Hin as [Hne Hin].
    destruct (Hreg d h' Hin) as [r' Hr']. exists r'.
    apply filter_In. split; [exact Hr' |]. cbn.
    destruct (Nat.eqb_spec h' h) as [-> |]; [| reflexivity].
    exfalso. destruct (Hreg p h Hget) as [r0 Hr0].
    assert (E := nodup_map_inj ow_handle _ _ _ Hhnd Hr' Hr0 eq_refl).
    injection E as E _. contradiction.
  - intros w Hin. apply filter_In in Hin as [Hin Hh].
    apply (map_delete_in path_eqb path_eqb_spec). split; [| exact (Hopen w Hin)].
    intros Hd. pose proof (Hopen w Hin) as Hw. rewrite Hd in Hw.
    rewrite (keys_unique _ _ _ _ Hnd Hw Hget), Nat.eqb_refl in Hh. discriminate.
  - apply nodup_map_filter. exact Hhnd.
  - intros w Hin. apply filter_In in Hin as [Hin _]. exact (Hlt w Hin).
Qed.

Lemma watcher_inv_fold_unwatch ks st :
  watcher_inv st -> watcher_inv (fold_left unwatchDirectory ks st).
Proof.
  revert st. induction ks as [| k r IH]; intros st H; simpl; [exact H |].
  apply IH, watcher_inv_unwatch, H.
Qed.

Lemma watcher_inv_reachable ok st : reachable ok st -> watcher_inv st.
Proof.
  induction 1.
  - exact watcher_inv_new.
  - apply watcher_inv_watch; assumption.
  - apply watcher_inv_unwatch; assumption.
  - apply watcher_inv_fold_unwatch; assumption.
Qed.

Lemma unwatch_keys st p k :
  In k (map fst (watchers (unwatchDirectory st p))) <->
  k <> p /\ In k (map fst (watchers st)).
Proof.
  unfold unwatchDirectory.
  destruct (map_get path_eqb p (watchers st)) as [h |] eqn:Hget.
  - exact (map_delete_keys path_eqb path_eqb_spec p _ k).
  - pose proof (map_get_none_keys path_eqb path_eqb_spec p _ Hget) as Hni.
    split; [| tauto]. intros Hin. split; [| exact Hin]. intros ->. contradiction.
Qed.

Lemma fold_unwatch_keys ks st k :
  In k (map fst (watchers (fold_left unwatchDirectory ks st))) <->
  ~ In k ks /\ In k (map fst (watchers st)).
Proof.
  revert st. induction ks as [| p r IH]; intros st; simpl; [tauto |].
  rewrite IH, unwatch_keys. intuition congruence.
Qed.

Lemma closeAll_watchers st : watchers (closeAll st) = [].
Proof.
  unfold closeAll.
  destruct (watchers (fold_left unwatchDirectory (map fst (watchers st)) st))
    as [| [k h] r] eqn:E; [reflexivity |].
  exfalso. assert (Hin : In k (map fst (watchers
    (fold_left unwatchDirectory (map fst (watchers st)) st)))).
  { rewrite E. left. reflexivity. }
  apply fold_unwatch_keys in Hin as [Hni Hin]. contradiction.
Qed.

Lemma deliver_registered st d h n :
  watcher_inv st -> In (d, h) (watchers st) -> nt_handle n = h ->
  deliver st n = on_watch_event d (nt_type n) (nt_filename n) (nt_time n).
Proof.
  intros (Hnd & Hreg & Hopen & Hhnd & Hlt) Hin Hh.
  destruct (Hreg d h Hin) as [r Hr]. unfold deliver. rewrite Hh.
  change h with (ow_handle (mkOsWatch h d r)).
  rewrite (find_os_watch_unique _ _ Hhnd Hr). reflexivity.
Qed.

(* ------------------------------------------------------------------ *)
(** ** FileWatcher claims *)

(** Claim C6, as stated, fails: a second [watchDirectory(p)] after
    [unwatchDirectory(p)] is rejected when [fs.watch] fails at that time,
    here because the directory was removed after the first watch. *)
Lemma rewatch_after_unwatch_can_fail :
  let st1 := fst (watchDirectory (fun _ _ => true) new_watcher ["tmp"%string] false) in
  let st2 := unwatchDirectory st1 ["tmp"%string] in
  watchers st1 = [(["tmp"%string], 0%nat)] /\
  watchers st2 = [] /\
  watchDirectory (fun _ _ => false) st2 ["tmp"%string] false =
    (st2, Some OsWatchFailed).
Proof. split; [| split]; reflexivity. Qed.

(** Claim C6 (amended): [watchDirectory(p)] on a watched path is rejected
    with [AlreadyWatching] and leaves the state unchanged;
    [unwatchDirectory(p)] on a path not watched leaves the state unchanged;
    after [unwatchDirectory(p)], [watchDirectory(p)] is never rejected as
    [AlreadyWatching]: it succeeds, registering [p], exactly when the
    [fs.watch] call succeeds at that time; in every reachable state each
    path has at most one registered handle and at most one open OS watch. *)
Theorem watch_unwatch_protocol ok st p r :
  reachable ok st ->
  (In p (map fst (watchers st)) ->
     watchDirectory ok st p r = (st, Some AlreadyWatching)) /\
  (~ In p (map fst (watchers st)) -> unwatchDirectory st p = st) /\
  (forall ok', let st' := unwatchDirectory st p in
     snd (watchDirectory ok' st' p r) = (if ok' p r then None else Some OsWatchFailed) /\
     (ok' p r = true -> In p (map fst (watchers (fst (watchDirectory ok' st' p r)))))) /\
  NoDup (map fst (watchers st)) /\
  (forall w1 w2, In w1 (os_open st) -> In w2 (os_open st) ->
     ow_dir w1 = ow_dir w2 -> w1 = w2).
Proof.
  intros Hr. pose proof (watcher_inv_reachable ok st Hr) as Hinv.
  pose proof Hinv as (Hnd & Hreg & Hopen & Hhnd & Hlt).
  split; [| split; [| split; [| split]]].
  - intros Hin. apply map_has_keys in Hin. unfold watchDirectory. rewrite Hin.
    reflexivity.
  - intros Hni. unfold unwatchDirectory.
    destruct (map_get path_eqb p (watchers st)) as [h |] eqn:Hget; [| reflexivity].
    apply (map_get_in path_eqb path_eqb_spec) in Hget.
    exfalso. apply Hni. exact (in_map fst _ _ Hget).
  - intros ok'. cbv zeta.
    assert (Hni : map_has path_eqb p (watchers (unwatchDirectory st p)) = false).
    { destruct (map_has path_eqb p (watchers (unwatchDirectory st p))) eqn:E;
        [| reflexivity].
      apply map_has_keys, unwatch_keys in E as [E _]. congruence. }
    unfold watchDirectory. rewrite Hni.
    destruct (ok' p r); split; try reflexivity; try discriminate.
    intros _. cbn [fst watchers]. apply map_set_keys; [exact path_eqb_spec |].
    left. reflexivity.
  - exact Hnd.
  - intros w1 w2 H1 H2 Hd.
    pose proof (Hopen w1 H1) as K1. pose proof (Hopen w2 H2) as K2.
    rewrite Hd in K1. pose proof (keys_unique _ _ _ _ Hnd K1 K2) as Hh.
    exact (nodup_map_inj ow_handle _ _ _ Hhnd H1 H2 Hh).
Qed.

(** Claim C7, as stated, fails: a notification of a watched directory
    without a file name produces no event. *)
Lemma notification_without_filename_dropped :
  let st := fst (watchDirectory (fun _ _ => true) new_watcher ["tmp"%string] false) in
  watchers st = [(["tmp"%string], 0%nat)] /\
  deliver st (mkNotification 0%nat Rename None 5) = [] /\
  deliver st (mkNotification 0%nat Change None 5) = [].
Proof. split; [| split]; reflexivity. Qed.

(** Claim C7 (amended): while [d] is watched through handle [h], a
    notification of [h] that carries a non-empty file name [f] is
    translated into exactly one event, of one of the kinds
    created/modified/removed, for the path [d/f] and carrying the
    notification time; a notification without a file name, or with an
    empty one, produces no event; no notification produces more than one
    event. *)
Theorem watched_notification_events ok st d h n :
  reachable ok st -> In (d, h) (watchers st) -> nt_handle n = h ->
  (forall f, nt_filename n = Some f -> f <> EmptyString ->
     exists e, deliver st n = [e] /\ In (ev_type e) [Add; Modified; Unlink] /\
               ev_path e = path_join d f /\ ev_timestamp e = nt_time n) /\
  ((nt_filename n = None \/ nt_filename n = Some EmptyString) -> deliver st n = []) /\
  (List.length (deliver st n) <= 1)%nat.
Proof.
  intros Hr Hin Hh.
  rewrite (deliver_registered st d h n (watcher_inv_reachable ok st Hr) Hin Hh).
  unfold on_watch_event. split; [| split].
  - intros f Hf Hne. rewrite Hf.
    destruct (String.eqb_spec f EmptyString); [contradiction |].
    eexists. split; [reflexivity |]. cbn [ev_type ev_path ev_timestamp].
    split; [| split; reflexivity].
    destruct (nt_type n); cbn [In]; auto.
  - intros [Hf | Hf]; rewrite Hf; reflexivity.
  - destruct (nt_filename n) as [f |]; [| cbn; lia].
    destruct (String.eqb f EmptyString); cbn; lia.
Qed.

(** Claim C8: after [closeAll()] from any reachable state, no path is
    registered, no OS watch resource is open, and no notification whatever
    produces an event. *)
Theorem closeAll_silences ok st :
  reachable ok st ->
  watchers (closeAll st) = [] /\ os_open (closeAll st) = [] /\
  (forall n, deliver (closeAll st) n = []).
Proof.
  intros Hr.
  pose proof (watcher_inv_reachable ok _ (reach_closeAll ok st Hr))
    as (_ & _ & Hopen & _ & _).
  pose proof (closeAll_watchers st) as Hw.
  assert (Ho : os_open (closeAll st) = []).
  { destruct (os_open (closeAll st)) as [| w r] eqn:E; [reflexivity |].
    exfalso. specialize (Hopen w (or_introl eq_refl)). rewrite Hw in Hopen.
    destruct Hopen. }
  split; [exact Hw | split; [exact Ho |]].
  intros n. unfold deliver. rewrite Ho. reflexivity.
Qed.

(* ------------------------------------------------------------------ *)
(** ** Instances of the claims on concrete inputs *)

Lemma makeExecutable_frame_witness :
  (0 <= 33188 < 2 ^ 16) /\
  makeExecutable (mkChmodCtx false true true false false) 33188 = Some (Z.lor 33188 73).
Proof.
  assert (H : 0 <= 33188 < 2 ^ 16) by (vm_compute; split; congruence).
  split; [exact H |].
  exact (proj1 (proj2 (makeExecutable_frame (mkChmodCtx false true true false false)
                         33188 H)) eq_refl).
Defined.

Lemma writeFileChunks_concat_witness :
  let chunks := repeat (repeat Byte.x00 1024) 1000 in
  List.length chunks = 1000%nat /\
  Forall (fun c => List.length c = 1024%nat) chunks /\
  Z.of_nat (List.length (writeFileChunks 4096 (fun i => Nat.modulo i 3) chunks)) = 1024000.
Proof.
  intros chunks.
  assert (Hl : List.length chunks = 1000%nat) by (apply repeat_length).
  assert (Hf : Forall (fun c => List.length c = 1024%nat) chunks).
  { apply Forall_forall. intros c Hc. apply repeat_spec in Hc. rewrite Hc.
    apply repeat_length. }
  split; [exact Hl | split; [exact Hf |]].
  exact (proj2 (writeFileChunks_concat 4096 (fun i => Nat.modulo i 3) chunks) Hl Hf).
Defined.

Lemma findDuplicates_groups_witness :
  "X"%string <> "Y"%string /\
  findDuplicates (fun c => c) (fun _ _ => None) fs_abc ["dir"%string] =
    Some [mkGroup "X" 1 [["dir"; "a.txt"]; ["dir"; "b.txt"]]]%string.
Proof.
  assert (H : "X"%string <> "Y"%string) by discriminate.
  split; [exact H |].
  exact (proj2 (findDuplicates_groups (fun c => c) (fun _ _ => None)) H).
Defined.

Lemma findDuplicates_members_agree_witness :
  findDuplicates (fun c => c) (fun _ _ => None) fs_abc ["dir"%string] =
    Some [mkGroup "X" 1 [["dir"; "a.txt"]; ["dir"; "b.txt"]]]%string /\
  getAllFiles (fun _ _ => None) fs_abc ["dir"%string] None =
    Some [["dir"; "a.txt"]; ["dir"; "b.txt"]; ["dir"; "c.txt"]]%string /\
  (forall f, In f [["dir"; "a.txt"]; ["dir"; "b.txt"]]%string ->
     calculateHash (fun c => c) fs_abc f = Some "X"%string).
Proof.
  assert (H1 : findDuplicates (fun c => c) (fun _ _ => None) fs_abc ["dir"%string] =
    Some [mkGroup "X" 1 [["dir"; "a.txt"]; ["dir"; "b.txt"]]]%string) by (vm_compute; reflexivity).
  assert (H2 : getAllFiles (fun _ _ => None) fs_abc ["dir"%string] None =
    Some [["dir"; "a.txt"]; ["dir"; "b.txt"]; ["dir"; "c.txt"]]%string) by (vm_compute; reflexivity).
  split; [exact H1 | split; [exact H2 |]].
  exact (proj1 (proj2 (findDuplicates_members_agree _ _ _ _ _ _ H1 H2 _
                         (or_introl eq_refl)))).
Defined.

Lemma findDuplicates_disjoint_witness :
  findDuplicates (fun c => c) (fun _ _ => None) fs_abc ["dir"%string] =
    Some [mkGroup "X" 1 [["dir"; "a.txt"]; ["dir"; "b.txt"]]]%string /\
  getAllFiles (fun _ _ => None) fs_abc ["dir"%string] None =
    Some [["dir"; "a.txt"]; ["dir"; "b.txt"]; ["dir"; "c.txt"]]%string /\
  (forall g p, In g [mkGroup "X" 1 [["dir"; "a.txt"]; ["dir"; "b.txt"]]]%string ->
     In p (dg_files g) ->
     In p [["dir"; "a.txt"]; ["dir"; "b.txt"]; ["dir"; "c.txt"]]%string).
Proof.
  assert (H1 : findDuplicates (fun c => c) (fun _ _ => None) fs_abc ["dir"%string] =
    Some [mkGroup "X" 1 [["dir"; "a.txt"]; ["dir"; "b.txt"]]]%string) by (vm_compute; reflexivity).
  assert (H2 : getAllFiles (fun _ _ => None) fs_abc ["dir"%string] None =
    Some [["dir"; "a.txt"]; ["dir"; "b.txt"]; ["dir"; "c.txt"]]%string) by (vm_compute; reflexivity).
  split; [exact H1 | split; [exact H2 |]].
  exact (proj2 (findDuplicates_disjoint _ _ _ _ _ _ H1 H2)).
Defined.

Lemma getAllFiles_spec_witness :
  stat fs_link ["d"%string] =
    Some (NDir [("sub", NDir [("f", NFile "x")]); ("ln", NSymlink ["d"; "sub"])])%string /\
  wf_node (NDir [("sub", NDir [("f", NFile "x")]); ("ln", NSymlink ["d"; "sub"])])%string
    = true /\
  getAllFiles (fun _ _ => None) fs_link ["d"%string] None =
    Some [["d"; "sub"; "f"]; ["d"; "ln"]]%string /\
  is_dir (NDir [("sub", NDir [("f", NFile "x")]); ("ln", NSymlink ["d"; "sub"])])%string
    = true.
Proof.
  assert (H1 : stat fs_link ["d"%string] =
    Some (NDir [("sub", NDir [("f", NFile "x")]); ("ln", NSymlink ["d"; "sub"])])%string)
    by (vm_compute; reflexivity).
  assert (H2 : wf_node (NDir [("sub", NDir [("f", NFile "x")]);
                              ("ln", NSymlink ["d"; "sub"])])%string = true)
    by (vm_compute; reflexivity).
  assert (H3 : getAllFiles (fun _ _ => None) fs_link ["d"%string] None =
    Some [["d"; "sub"; "f"]; ["d"; "ln"]]%string) by (vm_compute; reflexivity).
  split; [exact H1 | split; [exact H2 | split; [exact H3 |]]].
  exact (proj1 (getAllFiles_spec _ _ _ _ _ _ H1 H2 H3)).
Defined.

Lemma watch_unwatch_protocol_witness :
  reachable (fun _ _ => true)
    (fst (watchDirectory (fun _ _ => true) new_watcher ["tmp"%string] false)) /\
  NoDup (map fst (watchers
    (fst (watchDirectory (fun _ _ => true) new_watcher ["tmp"%string] false)))).
Proof.
  assert (Hr := reach_watch (fun _ _ => true) new_watcher ["tmp"%string] false
                  (reach_new (fun _ _ => true))).
  split; [exact Hr |].
  exact (proj1 (proj2 (proj2 (proj2
    (watch_unwatch_protocol _ _ ["tmp"%string] false Hr))))).
Defined.

Lemma watched_notification_events_witness :
  reachable (fun _ _ => true)
    (fst (watchDirectory (fun _ _ => true) new_watcher ["tmp"%string] false)) /\
  In (["tmp"%string], 0%nat)
    (watchers (fst (watchDirectory (fun _ _ => true) new_watcher ["tmp"%string] false))) /\
  exists e,
    deliver (fst (watchDirectory (fun _ _ => true) new_watcher ["tmp"%string] false))
      (mkNotification 0%nat Change (Some "a.txt"%string) 7) = [e] /\
    In (ev_type e) [Add; Modified; Unlink] /\
    ev_path e = path_join ["tmp"%string] "a.txt"%string /\ ev_timestamp e = 7.
Proof.
  assert (Hr := reach_watch (fun _ _ => true) new_watcher ["tmp"%string] false
                  (reach_new (fun _ _ => true))).
  assert (Hin : In (["tmp"%string], 0%nat)
    (watchers (fst (watchDirectory (fun _ _ => true) new_watcher ["tmp"%string] false))))
    by (simpl; left; reflexivity).
  split; [exact Hr | split; [exact Hin |]].
  refine (proj1 (watched_notification_events _ _ _ _
            (mkNotification 0%nat Change (Some "a.txt"%string) 7) Hr Hin eq_refl)
            "a.txt"%string eq_refl _).
  discriminate.
Defined.

Lemma closeAll_silences_witness :
  reachable (fun _ _ => true)
    (fst (watchDirectory (fun _ _ => true) new_watcher ["tmp"%string] false)) /\
  deliver (closeAll (fst (watchDirectory (fun _ _ => true) new_watcher ["tmp"%string] false)))
    (mkNotification 0%nat Change (Some "a.txt"%string) 7) = [].
Proof.
  assert (Hr := reach_watch (fun _ _ => true) new_watcher ["tmp"%string] false
                  (reach_new (fun _ _ => true))).
  split; [exact Hr |].
  exact (proj2 (proj2 (closeAll_silences _ _ Hr)) _).
Defined.

(* ------------------------------------------------------------------ *)
(** ** Permission bits *)

Lemma perms_eqb_eq p q : perms_eqb p q = true -> p = q.
Proof.
  destruct p as [[a b c] [d e f] [g h i]], q as [[a' b' c'] [d' e' f'] [g' h' i']].
  unfold perms_eqb, triple_eqb; cbn.
  intros H. repeat rewrite andb_true_iff in H.
  repeat match goal with
         | H : _ /\ _ |- _ => destruct H
         | H : Bool.eqb _ _ = true |- _ => apply eqb_prop in H
         end.
  subst. reflexivity.
Qed.

Lemma range512 (f : Z -> bool) :
  forallb f (map Z.of_nat (seq 0 512)) = true ->
  forall r, 0 <= r < 512 -> f r = true.
Proof.
  intros H r Hr. rewrite forallb_forall in H. apply H.
  apply in_map_iff. exists (Z.to_nat r). split; [apply Z2Nat.id; lia |].
  apply in_seq. lia.
Qed.

Lemma to_int32_mod512 m : to_int32 m mod 512 = m mod 512.
Proof.
  unfold to_int32.
  assert (Hd : m mod 512 = (m mod 2 ^ 32) mod 512).
  { rewrite (Z.mod_eq m (2 ^ 32)) by lia.
    set (q := m / 2 ^ 32).
    replace (m - 2 ^ 32 * q) with (m + (- q * 2 ^ 23) * 512)
      by (change (2 ^ 32) with 4294967296; change (2 ^ 23) with 8388608; lia).
    symmetry. apply Z.mod_add. lia. }
  destruct (m mod 2 ^ 32 <? 2 ^ 31); [symmetry; exact Hd |].
  rewrite Hd. replace (m mod 2 ^ 32 - 2 ^ 32) with (m mod 2 ^ 32 + (- 2 ^ 23) * 512)
    by lia.
  apply Z.mod_add. lia.
Qed.

Lemma land_low9 x mask :
  0 <= mask < 512 -> Z.land x mask = Z.land (x mod 512) mask.
Proof.
  intros Hm. apply Z.bits_inj'. intros i Hi. rewrite !Z.land_spec.
  destruct (Z.lt_ge_cases i 9).
  - change 512 with (2 ^ 9). rewrite Z.mod_pow2_bits_low by lia. reflexivity.
  - replace (Z.testbit mask i) with false; [rewrite !andb_false_r; reflexivity |].
    rewrite <- (Z.mod_small mask (2 ^ 9)) by (cbn; lia).
    symmetry. apply Z.mod_pow2_bits_high. lia.
Qed.

Lemma js_band_low9 m mask :
  0 <= mask < 512 -> js_band m mask = Z.land (m mod 512) mask.
Proof.
  intros Hm. unfold js_band.
  replace (to_int32 mask) with mask
    by (unfold to_int32; rewrite Z.mod_small by lia;
        destruct (Z.ltb_spec mask (2 ^ 31)); lia).
  rewrite land_low9 by exact Hm. rewrite to_int32_mod512. reflexivity.
Qed.

Lemma modeToPermissions_low9 m :
  modeToPermissions m = modeToPermissions (m mod 512).
Proof.
  unfold modeToPermissions.
  rewrite !(js_band_low9 m) by lia.
  rewrite !(js_band_low9 (m mod 512)) by lia.
  rewrite Z.mod_mod by lia. reflexivity.
Qed.

Lemma land511 m : Z.land m 511 = m mod 512.
Proof. change 511 with (Z.ones 9). rewrite Z.land_ones by lia. reflexivity. Qed.

Lemma permissions_roundtrip_bools p : modeToPermissions (permissionsToMode p) = p.
Proof.
  destruct p as [[a b c] [d e f] [g h i]].
  destruct a, b, c, d, e, f, g, h, i; reflexivity.
Qed.

Lemma permissionsToMode_range p : 0 <= permissionsToMode p < 512.
Proof.
  destruct p as [[a b c] [d e f] [g h i]].
  destruct a, b, c, d, e, f, g, h, i;
    (split; [apply Z.leb_le | apply Z.ltb_lt]; vm_compute; reflexivity).
Qed.

(** Extra: [modeToPermissions] reads the nine permission bits of a mode
    and nothing else: the file type, setuid, setgid and sticky bits, and
    every higher bit, make no difference. *)
Theorem modeToPermissions_low_bits (m : Z) :
  modeToPermissions m = modeToPermissions (Z.land m 511).
Proof.
  rewrite land511. rewrite (modeToPermissions_low9 (m mod 512)), Z.mod_mod by lia.
  apply modeToPermissions_low9.
Qed.

(** Extra: converting a mode to a permission struct and back gives the nine
    permission bits of the mode, [mode & 0o777], for every integer mode. *)
Theorem mode_permissions_mode (m : Z) :
  permissionsToMode (modeToPermissions m) = Z.land m 511.
Proof.
  rewrite land511, modeToPermissions_low9.
  assert (Hr : 0 <= m mod 512 < 512) by (apply Z.mod_pos_bound; lia).
  apply Z.eqb_eq.
  exact (range512 (fun r => permissionsToMode (modeToPermissions r) =? r)
           ltac:(vm_compute; reflexivity) _ Hr).
Qed.

(** Extra: the [set_permissions] tool on an existing file fails when the
    kernel refuses the chmod; otherwise it reports exactly the requested
    permissions, and the new [st_mode] keeps the file-type bits of the old
    one while its twelve low bits are the requested nine permission bits,
    so setuid, setgid and sticky are cleared. On a missing file it
    fails. *)
Theorem set_permissions_reports_request (cx : ChmodCtx) (m : Z) (p : FilePermissions) :
  (chmod_refused cx = true -> set_permissions_handler cx (Some m) p = None) /\
  (chmod_refused cx = false ->
   exists m', set_permissions_handler cx (Some m) p = Some (m', p) /\
     Z.land m' (Z.lnot 4095) = Z.land m (Z.lnot 4095) /\
     Z.land m' 4095 = permissionsToMode p) /\
  set_permissions_handler cx None p = None.
Proof.
  pose proof (permissionsToMode_range p) as Hr.
  set (pm := permissionsToMode p) in *.
  set (m' := Z.lor (Z.land m (Z.lnot 4095)) pm).
  assert (Hhigh : forall i, 9 <= i -> Z.testbit pm i = false).
  { intros i Hi. rewrite <- (Z.mod_small pm (2 ^ 9)) by (cbn; lia).
    apply Z.mod_pow2_bits_high. lia. }
  assert (H4095 : Z.land pm 4095 = pm).
  { change 4095 with (Z.ones 12). rewrite Z.land_ones by lia.
    apply Z.mod_small. lia. }
  assert (Hset : setPermissions cx (Some m) p =
                 if chmod_refused cx then None else Some m').
  { unfold setPermissions. fold pm. rewrite chmod_spec by lia.
    destruct (chmod_refused cx); [reflexivity |]. f_equal. unfold m'. f_equal.
    rewrite H4095. destruct (cx_privileged cx || cx_in_group cx); [reflexivity |].
    apply Z.bits_inj'. intros i Hi.
    rewrite Z.land_spec, Z.lnot_spec by lia.
    change 1024 with (2 ^ 10). rewrite Z.pow2_bits_eqb by lia.
    destruct (Z.eqb_spec 10 i) as [<- | Hne]; cbn [negb].
    - rewrite Hhigh by lia. reflexivity.
    - apply andb_true_r. }
  assert (Hlow : Z.land m' 4095 = pm).
  { apply Z.bits_inj'. intros i Hi. unfold m'.
    rewrite Z.land_spec, Z.lor_spec, Z.land_spec, Z.lnot_spec by lia.
    change 4095 with (Z.ones 12). rewrite Z.testbit_ones_nonneg by lia.
    destruct (Z.ltb_spec i 12); cbn.
    - rewrite andb_false_r, andb_true_r. reflexivity.
    - rewrite Hhigh by lia. rewrite andb_false_r. reflexivity. }
  split; [| split; [| reflexivity]]; intros Href;
    unfold set_permissions_handler; rewrite Hset, Href; [reflexivity |].
  exists m'. split; [| split; [| exact Hlow]].
  - cbn [getPermissions]. f_equal. f_equal.
    rewrite modeToPermissions_low9, <- land511.
    replace (Z.land m' 511) with pm; [apply permissions_roundtrip_bools |].
    symmetry. change 511 with (Z.land 4095 511) at 1.
    rewrite Z.land_assoc, Hlow, land511. apply Z.mod_small. exact Hr.
  - apply Z.bits_inj'. intros i Hi. unfold m'.
    rewrite !Z.land_spec, Z.lor_spec, Z.land_spec, Z.lnot_spec by lia.
    change 4095 with (Z.ones 12). rewrite Z.testbit_ones_nonneg by lia.
    destruct (Z.ltb_spec i 12); cbn.
    + rewrite !andb_false_r. reflexivity.
    + rewrite Hhigh by lia. rewrite orb_false_r, andb_true_r. reflexivity.
Qed.

Lemma lor_bound31 (a b : Z) :
  0 <= a < 2 ^ 31 -> 0 <= b < 2 ^ 31 -> 0 <= Z.lor a b < 2 ^ 31.
Proof.
  intros Ha Hb. split; [apply Z.lor_nonneg; lia |].
  destruct (Z.eq_dec (Z.lor a b) 0) as [E | E]; [rewrite E; lia |].
  apply Z.log2_lt_pow2; [apply Z.le_neq; split; [apply Z.lor_nonneg; lia | congruence] |].
  rewrite Z.log2_lor by lia. apply Z.max_lub_lt.
  - destruct (Z.eq_dec a 0) as [->|]; [cbn; lia | apply Z.log2_lt_pow2; lia].
  - destruct (Z.eq_dec b 0) as [->|]; [cbn; lia | apply Z.log2_lt_pow2; lia].
Qed.

Lemma makeExecutable_lor cx (m : Z) :
  0 <= m < 2 ^ 31 ->
  makeExecutable cx m =
  if chmod_refused cx then None
  else Some (if cx_privileged cx || cx_in_group cx then Z.lor m 73
             else Z.land (Z.lor m 73) (Z.lnot 1024)).
Proof.
  intros Hm.
  assert (Hi : to_int32 m = m).
  { unfold to_int32. rewrite Z.mod_small by lia.
    destruct (Z.ltb_spec m (2 ^ 31)); lia. }
  unfold makeExecutable, js_bor. rewrite Hi. change (to_int32 73) with 73.
  destruct (lor_bound31 m 73 Hm ltac:(lia)) as [Hlo Hhi].
  rewrite chmod_spec by lia. rewrite chmod_lor73_value. reflexivity.
Qed.

Lemma clear_sgid_mod512 x : Z.land x (Z.lnot 1024) mod 512 = x mod 512.
Proof.
  rewrite <- !land511, <- Z.land_assoc.
  replace (Z.land (Z.lnot 1024) 511) with 511 by reflexivity. reflexivity.
Qed.

Lemma lor73_mod512 m : Z.lor m 73 mod 512 = Z.lor (m mod 512) 73.
Proof.
  apply Z.bits_inj'. intros i Hi. change 512 with (2 ^ 9).
  rewrite Z.testbit_mod_pow2, !Z.lor_spec, Z.testbit_mod_pow2 by lia.
  destruct (Z.ltb_spec i 9); cbn [andb]; [reflexivity |].
  rewrite testbit_73 by lia.
  replace (i =? 0) with false by (symmetry; apply Z.eqb_neq; lia).
  replace (i =? 3) with false by (symmetry; apply Z.eqb_neq; lia).
  replace (i =? 6) with false by (symmetry; apply Z.eqb_neq; lia).
  reflexivity.
Qed.

(** Extra: the [make_executable] tool on an existing file whose [st_mode]
    [m] is a nonnegative 31-bit value fails when the kernel refuses the
    chmod; otherwise it sets the mode to [m | 0o111] (with the
    set-group-ID bit cleared for an unprivileged caller outside the file's
    group) and reports the old permissions with the three execute flags
    set, every read and write flag as before. On a missing file it
    fails. *)
Theorem make_executable_reports (cx : ChmodCtx) (m : Z) :
  0 <= m < 2 ^ 31 ->
  (chmod_refused cx = true -> make_executable_handler cx (Some m) = None) /\
  (chmod_refused cx = false ->
     make_executable_handler cx (Some m) =
       Some (if cx_privileged cx || cx_in_group cx then Z.lor m 73
             else Z.land (Z.lor m 73) (Z.lnot 1024),
             with_execute (modeToPermissions m))) /\
  make_executable_handler cx None = None.
Proof.
  intros Hm. split; [| split; [| reflexivity]];
    intros Href; unfold make_executable_handler; rewrite (makeExecutable_lor cx m Hm), Href;
    [reflexivity |].
  cbn [getPermissions]. do 2 f_equal.
  assert (Hx : modeToPermissions (Z.lor m 73) = with_execute (modeToPermissions m)).
  { rewrite (modeToPermissions_low9 (Z.lor m 73)), (modeToPermissions_low9 m),
      lor73_mod512.
    assert (Hr : 0 <= m mod 512 < 512) by (apply Z.mod_pos_bound; lia).
    apply perms_eqb_eq.
    exact (range512 (fun r => perms_eqb (modeToPermissions (Z.lor r 73))
                                        (with_execute (modeToPermissions r)))
             ltac:(vm_compute; reflexivity) _ Hr). }
  destruct (cx_privileged cx || cx_in_group cx); [exact Hx |].
  rewrite modeToPermissions_low9, clear_sgid_mod512, <- modeToPermissions_low9.
  exact Hx.
Qed.

Lemma octal_rev_S f n :
  octal_rev (S f) n = if n =? 0 then [] else (n mod 8) :: octal_rev f (n / 8).
Proof. reflexivity. Qed.

Lemma skipn_length_app {A} (l r : list A) : skipn (List.length l) (l ++ r) = r.
Proof. induction l; simpl; auto. Qed.

Lemma octal_digits_reduce m :
  (m / 8 / 8) mod 8 = ((m mod 512) / 8 / 8) mod 8 /\
  (m / 8) mod 8 = ((m mod 512) / 8) mod 8 /\
  m mod 8 = (m mod 512) mod 8.
Proof.
  pose proof (Z.div_mod m 512 ltac:(lia)) as Hm.
  set (q := m / 512) in *. set (r := m mod 512) in *.
  assert (H8 : m / 8 = r / 8 + 64 * q).
  { rewrite Hm. replace (512 * q + r) with (r + (64 * q) * 8) by lia.
    rewrite Z.div_add by lia. reflexivity. }
  assert (H64 : m / 8 / 8 = r / 8 / 8 + 8 * q).
  { rewrite H8. replace (r / 8 + 64 * q) with (r / 8 + (8 * q) * 8) by lia.
    rewrite Z.div_add by lia. reflexivity. }
  split; [| split].
  - rewrite H64. replace (r / 8 / 8 + 8 * q) with (r / 8 / 8 + q * 8) by lia.
    apply Z.mod_add. lia.
  - rewrite H8. replace (r / 8 + 64 * q) with (r / 8 + (8 * q) * 8) by lia.
    apply Z.mod_add. lia.
  - rewrite Hm. replace (512 * q + r) with (r + (64 * q) * 8) by lia.
    apply Z.mod_add. lia.
Qed.

(** Extra: the [mode] string of [getFileStats] for a mode of at least
    0o100 (every real [st_mode], which carries file-type bits) is the
    three octal permission digits, each [4r + 2w + x] of the owner, group
    and others flags that [modeToPermissions] reads from the same mode; a
    mode below 0o100 gives a string of fewer than three characters. *)
Theorem getFileStats_mode_digits (m : Z) :
  (64 <= m ->
   let P := modeToPermissions m in
   getFileStats_mode m =
     [48 + perm_digit (owner P); 48 + perm_digit (group P);
      48 + perm_digit (others P)]) /\
  (0 <= m < 64 -> (List.length (getFileStats_mode m) < 3)%nat).
Proof.
  split.
  - intros Hm P.
    assert (Hs : getFileStats_mode m =
                 [48 + (m / 8 / 8) mod 8; 48 + (m / 8) mod 8; 48 + m mod 8]).
    { unfold getFileStats_mode, toString8, slice_last3.
      rewrite (proj2 (Z.eqb_neq m 0)) by lia.
      change 32%nat with (S (S (S 29))).
      rewrite !octal_rev_S.
      rewrite (proj2 (Z.eqb_neq m 0)) by lia.
      assert (H1 : 8 <= m / 8) by (apply Z.div_le_lower_bound; lia).
      rewrite (proj2 (Z.eqb_neq (m / 8) 0)) by lia.
      assert (H2 : 1 <= m / 8 / 8) by (apply Z.div_le_lower_bound; lia).
      rewrite (proj2 (Z.eqb_neq (m / 8 / 8) 0)) by lia.
      cbn [rev]. rewrite <- !app_assoc. cbn [app]. rewrite map_app. cbn [map].
      rewrite length_app. cbn [List.length].
      match goal with
      | |- skipn (?n + 3 - 3) _ = _ => replace (n + 3 - 3)%nat with n by lia
      end.
      apply skipn_length_app. }
    rewrite Hs. unfold P. rewrite modeToPermissions_low9.
    destruct (octal_digits_reduce m) as (E1 & E2 & E3). rewrite E1, E2, E3.
    assert (Hr : 0 <= m mod 512 < 512) by (apply Z.mod_pos_bound; lia).
    pose proof (range512 (fun r =>
       (perm_digit (owner (modeToPermissions r)) =? (r / 8 / 8) mod 8) &&
       (perm_digit (group (modeToPermissions r)) =? (r / 8) mod 8) &&
       (perm_digit (others (modeToPermissions r)) =? r mod 8))
       ltac:(vm_compute; reflexivity) _ Hr) as Hc.
    cbv beta in Hc. rewrite !andb_true_iff, !Z.eqb_eq in Hc.
    destruct Hc as [[-> ->] ->]. reflexivity.
  - intros Hm.
    pose proof (range512 (fun r => negb (r <? 64) ||
                               Nat.ltb (List.length (getFileStats_mode r)) 3)
                  ltac:(vm_compute; reflexivity) m ltac:(lia)) as Hc.
    cbv beta in Hc. rewrite (proj2 (Z.ltb_lt m 64)) in Hc by lia.
    cbn [negb orb] in Hc. apply Nat.ltb_lt. exact Hc.
Qed.

(* ------------------------------------------------------------------ *)
(** ** Splitting JavaScript strings *)

Lemma cons_head_ne c ps : cons_head c ps <> [].
Proof. destruct ps; discriminate. Qed.

Lemma split_ne sep s : js_split_unit sep s <> [].
Proof.
  destruct s as [| c r]; simpl; [discriminate |].
  destruct (Z.eqb c sep); [discriminate | apply cons_head_ne].
Qed.

Lemma removelast_cons_ne {A} (x : A) l : l <> [] -> removelast (x :: l) = x :: removelast l.
Proof. destruct l; [congruence | reflexivity]. Qed.

Lemma last_cons_ne' {A} (x : A) l d : l <> [] -> last (x :: l) d = last l d.
Proof. destruct l; [congruence | reflexivity]. Qed.

Lemma removelast_app_ne {A} (l m : list A) :
  m <> [] -> removelast (l ++ m) = l ++ removelast m.
Proof.
  intros Hm. induction l as [| x r IH]; [reflexivity |].
  cbn [app]. rewrite removelast_cons_ne, IH; [reflexivity |].
  destruct r, m; cbn; congruence.
Qed.

Lemma last_app_ne {A} (l m : list A) d : m <> [] -> last (l ++ m) d = last m d.
Proof.
  intros Hm. induction l as [| x r IH]; [reflexivity |].
  cbn [app]. rewrite last_cons_ne', IH; [reflexivity |].
  destruct r, m; cbn; congruence.
Qed.

(** Splitting a concatenation: the pieces of [a] but its last, then the
    pieces of the last piece of [a] followed by [b]. *)
Lemma split_app sep a b :
  js_split_unit sep (a ++ b) =
  removelast (js_split_unit sep a) ++
  js_split_unit sep (last (js_split_unit sep a) [] ++ b).
Proof.
  induction a as [| c r IH]; [reflexivity |].
  cbn [app js_split_unit]. destruct (Z.eqb_spec c sep) as [E | E].
  - rewrite IH, removelast_cons_ne, last_cons_ne' by apply split_ne.
    reflexivity.
  - rewrite IH.
    destruct (js_split_unit sep r) as [| q0 qs] eqn:Hs; [exfalso; exact (split_ne sep r Hs) |].
    destruct qs as [| q1 qs].
    + cbn [removelast last cons_head app js_split_unit].
      destruct (Z.eqb_spec c sep); [contradiction | reflexivity].
    + cbn [cons_head]. rewrite removelast_cons_ne by discriminate.
      rewrite (last_cons_ne' (c :: q0)) by discriminate.
      rewrite (last_cons_ne' q0) by discriminate.
      rewrite (removelast_cons_ne (c :: q0)) by discriminate. reflexivity.
Qed.

Lemma split_no_sep sep s : ~ In sep s -> js_split_unit sep s = [s].
Proof.
  induction s as [| c r IH]; intros Hn; [reflexivity |].
  cbn [js_split_unit]. destruct (Z.eqb_spec c sep) as [-> | E].
  - exfalso. apply Hn. left. reflexivity.
  - rewrite IH; [reflexivity |]. intros Hin. apply Hn. right. exact Hin.
Qed.

Lemma split_pieces_no_sep sep s : forall p, In p (js_split_unit sep s) -> ~ In sep p.
Proof.
  induction s as [| c r IH]; cbn [js_split_unit].
  - intros p [<- | []] [].
  - destruct (Z.eqb_spec c sep) as [E | E].
    + intros p [<- | Hp]; [intros [] | exact (IH p Hp)].
    + unfold cons_head. destruct (js_split_unit sep r) as [| q qs] eqn:Hs.
      * intros p [<- | []] [Heq | []]. congruence.
      * intros p [<- | Hp].
        -- intros [Heq | Hin]; [congruence |]. apply (IH q); [left |]; auto.
        -- apply IH. right. exact Hp.
Qed.

Lemma last_piece_no_sep sep s : ~ In sep (last (js_split_unit sep s) []).
Proof.
  apply (split_pieces_no_sep sep s).
  generalize (split_ne sep s). generalize (js_split_unit sep s) as l.
  intros l Hne. destruct l as [| x r]; [congruence |].
  clear Hne. revert x. induction r as [| y r IH]; intros x; [left; reflexivity |].
  right. apply IH.
Qed.

Lemma split_length sep s :
  List.length (js_split_unit sep s) = S (count_occ Z.eq_dec s sep).
Proof.
  induction s as [| c r IH]; [reflexivity |].
  cbn [js_split_unit count_occ]. destruct (Z.eqb_spec c sep) as [E | E].
  - destruct (Z.eq_dec c sep); [| contradiction]. cbn [List.length]. rewrite IH. reflexivity.
  - destruct (Z.eq_dec c sep); [contradiction |].
    unfold cons_head. destruct (js_split_unit sep r); cbn in *; lia.
Qed.

Lemma split_snoc_no_sep sep q x :
  ~ In sep q ->
  js_split_unit sep (q ++ [x]) = if Z.eqb x sep then [q; []] else [q ++ [x]].
Proof.
  induction q as [| c r IH]; intros Hn.
  - cbn. destruct (Z.eqb x sep); reflexivity.
  - cbn [app js_split_unit]. destruct (Z.eqb_spec c sep) as [-> | E].
    + exfalso. apply Hn. left. reflexivity.
    + rewrite IH by (intros Hin; apply Hn; right; exact Hin).
      destruct (Z.eqb x sep); reflexivity.
Qed.

(** The last piece of a split is empty exactly when the string is empty or
    ends with the separator. *)
Lemma split_last_empty sep s :
  last (js_split_unit sep s) [] = [] <-> s = [] \/ (s <> [] /\ last s 0 = sep).
Proof.
  induction s as [| x s IH] using rev_ind; [split; auto |].
  rewrite split_app.
  set (q := last (js_split_unit sep s) []).
  assert (Hq : ~ In sep q) by apply last_piece_no_sep.
  rewrite last_app_ne by apply split_ne.
  assert (Hl : last (s ++ [x]) 0 = x) by (rewrite last_app_ne by discriminate; reflexivity).
  rewrite Hl, (split_snoc_no_sep sep q x Hq).
  destruct (Z.eqb_spec x sep) as [E | E]; cbn [last app].
  - split; [intros _; right; split; [destruct s; discriminate | exact E] | reflexivity].
  - split.
    + intros H. destruct q; discriminate.
    + intros [H | [_ H]]; [destruct s; discriminate | contradiction].
Qed.

(* ------------------------------------------------------------------ *)
(** ** [transformLines], [analyzeTextFile], [searchInFile] *)

Lemma transform_loop_spec (t : jstr -> jstr) chunks :
  forall r, ~ In NL r ->
  transform_loop t r chunks =
    (map t (removelast (js_split_unit NL (r ++ List.concat chunks))),
     last (js_split_unit NL (r ++ List.concat chunks)) []).
Proof.
  induction chunks as [| c rest IH]; intros r Hr.
  - cbn [transform_loop List.concat]. rewrite app_nil_r, split_no_sep by exact Hr.
    reflexivity.
  - cbn [transform_loop List.concat].
    rewrite (IH _ (last_piece_no_sep NL (r ++ c))).
    rewrite app_assoc, (split_app NL (r ++ c) (List.concat rest)).
    rewrite removelast_app_ne, map_app, last_app_ne by apply split_ne.
    reflexivity.
Qed.

(** Extra: whatever the chunks the read stream delivers, [transformLines]
    yields [transform] of each line of the file content, in order: the
    pieces of the content split at ['\n'], the last piece omitted when it
    is empty (a final newline, or an empty file). *)
Theorem transformLines_lines (transform : jstr -> jstr) (chunks : list jstr) :
  let L := js_split_unit NL (List.concat chunks) in
  transformLines transform chunks =
    map transform (removelast L) ++
    match last L [] with [] => [] | l => [transform l] end.
Proof.
  intros L. unfold transformLines.
  rewrite (transform_loop_spec transform chunks [] (fun H => H)). cbn [app].
  fold L. destruct (last L []); reflexivity.
Qed.

(** Extra: [transformLines] yields one value per ['\n'] of the file, plus
    one for a last line without a final newline; an empty file yields
    nothing. *)
Theorem transformLines_count (transform : jstr -> jstr) (chunks : list jstr) :
  let s := List.concat chunks in
  List.length (transformLines transform chunks) =
    (count_occ Z.eq_dec s NL +
     match s with [] => 0 | _ => if Z.eqb (last s 0%Z) NL then 0 else 1 end)%nat.
Proof.
  intros s. unfold transformLines.
  rewrite (transform_loop_spec transform chunks [] (fun H => H)). cbn [app].
  fold s. rewrite length_app, length_map.
  assert (Hlen : List.length (removelast (js_split_unit NL s)) =
                 count_occ Z.eq_dec s NL).
  { pose proof (split_length NL s) as Hl. pose proof (split_ne NL s) as Hne.
    destruct (js_split_unit NL s) as [| x r] eqn:E using rev_ind; [congruence |].
    rewrite removelast_last. rewrite length_app in Hl. cbn in Hl. lia. }
  rewrite Hlen. f_equal.
  pose proof (split_last_empty NL s) as He.
  destruct (last (js_split_unit NL s) []) as [| c l] eqn:El.
  - destruct (proj1 He eq_refl) as [-> | [Hne Hx]]; [reflexivity |].
    destruct s; [congruence |]. rewrite Hx, Z.eqb_refl. reflexivity.
  - cbn [List.length]. destruct s as [| a s']; [discriminate (proj2 He (or_introl eq_refl)) |].
    destruct (Z.eqb_spec (last (a :: s') 0) NL) as [Hx | Hx]; [| reflexivity].
    exfalso. assert (Hc : c :: l = []) by (apply He; right; split; [discriminate | exact Hx]).
    discriminate.
Qed.

(** Extra: [analyzeTextFile] counts one line more than the file has
    ['\n'] characters (an empty file has one line, a final newline adds an
    empty last line), and [charCount] is the number of UTF-16 code units of
    the content. *)
Theorem analyzeTextFile_counts (detected mime : option string) (content : jstr) :
  lineCount (analyzeTextFile detected mime content) =
    S (count_occ Z.eq_dec content NL) /\
  charCount (analyzeTextFile detected mime content) = List.length content.
Proof. split; [apply split_length | reflexivity]. Qed.


Lemma wordCount_eq d m s :
  wordCount (analyzeTextFile d m s) =
  List.length (filter word_nonempty (split_ws s)).
Proof. reflexivity. Qed.

Lemma split_ws_head s :
  exists p ps, split_ws s = p :: ps /\ (p = [] <-> ws_start s = true).
Proof.
  induction s as [| c r IH]; cbn [split_ws ws_start].
  - exists [], []. tauto.
  - destruct (is_ws c) eqn:Hc.
    + destruct r as [| d r'].
      * exists [], [[]]. tauto.
      * destruct (is_ws d) eqn:Hd.
        -- destruct IH as (p & ps & E & Hp). exists p, ps. split; [exact E |].
           cbn [ws_start] in Hp. rewrite Hd in Hp. tauto.
        -- exists [], (split_ws (d :: r')). tauto.
    + destruct IH as (p & ps & E & _). rewrite E. cbn [cons_head].
      exists (c :: p), ps. split; [reflexivity |]. split; discriminate.
Qed.

Lemma words_ws c r : is_ws c = true ->
  filter word_nonempty (split_ws (c :: r)) = filter word_nonempty (split_ws r).
Proof.
  intros Hc. cbn [split_ws]. rewrite Hc.
  destruct r as [| d r']; [reflexivity |].
  destruct (is_ws d); reflexivity.
Qed.

Lemma words_cons_nonempty x p ps :
  filter word_nonempty ((x :: p) :: ps) = (x :: p) :: filter word_nonempty ps.
Proof. reflexivity. Qed.

Lemma words_cons_empty ps :
  filter word_nonempty ([] :: ps) = filter word_nonempty ps.
Proof. reflexivity. Qed.

Lemma words_nonws c r : is_ws c = false ->
  List.length (filter word_nonempty (split_ws (c :: r))) =
  (List.length (filter word_nonempty (split_ws r)) +
   if ws_start r then 1 else 0)%nat.
Proof.
  intros Hc. cbn [split_ws]. rewrite Hc.
  destruct (split_ws_head r) as (p & ps & E & Hp). rewrite E.
  cbn [cons_head]. rewrite words_cons_nonempty. cbn [List.length].
  destruct (ws_start r).
  - rewrite (proj2 Hp eq_refl), words_cons_empty. lia.
  - destruct p as [| y p'].
    + discriminate (proj1 Hp eq_refl).
    + rewrite words_cons_nonempty. cbn [List.length]. lia.
Qed.

Lemma words_all_ws w b : forallb is_ws w = true ->
  filter word_nonempty (split_ws (w ++ b)) = filter word_nonempty (split_ws b).
Proof.
  induction w as [| c w IH]; intros H; [reflexivity |].
  cbn [forallb] in H. apply andb_prop in H as [Hc Hw].
  cbn [app]. rewrite (words_ws c (w ++ b) Hc). exact (IH Hw).
Qed.

Lemma ws_start_app r w b : w <> [] -> forallb is_ws w = true ->
  ws_start (r ++ w ++ b) = ws_start r.
Proof.
  intros Hne H. destruct r as [| c r']; [| reflexivity].
  destruct w as [| c w']; [congruence |].
  cbn [forallb] in H. apply andb_prop in H as [Hc _]. exact Hc.
Qed.

Lemma split_ws_no_ws s : forallb (fun c => negb (is_ws c)) s = true ->
  split_ws s = [s].
Proof.
  induction s as [| c r IH]; intros H; [reflexivity |].
  cbn [forallb] in H. apply andb_prop in H as [Hc Hr].
  cbn [split_ws]. destruct (is_ws c); [discriminate |].
  rewrite (IH Hr). reflexivity.
Qed.

(** Extra: [wordCount] of [analyzeTextFile] counts the maximal runs of
    non-whitespace: a nonempty run of whitespace splits the content into
    two parts whose counts add up, content made only of whitespace (or
    empty) has no word, and a nonempty content without whitespace is one
    word. *)
Theorem analyzeTextFile_wordCount (detected mime : option string) :
  (forall a w b, w <> [] -> forallb is_ws w = true ->
     wordCount (analyzeTextFile detected mime (a ++ w ++ b)) =
     (wordCount (analyzeTextFile detected mime a) +
      wordCount (analyzeTextFile detected mime b))%nat) /\
  (forall w, forallb is_ws w = true ->
     wordCount (analyzeTextFile detected mime w) = 0%nat) /\
  (forall s, s <> [] -> forallb (fun c => negb (is_ws c)) s = true ->
     wordCount (analyzeTextFile detected mime s) = 1%nat).
Proof.
  repeat split.
  - intros a w b Hne Hw. rewrite !wordCount_eq.
    induction a as [| c r IH].
    + cbn [app]. rewrite (words_all_ws w b Hw). reflexivity.
    + cbn [app]. destruct (is_ws c) eqn:Hc.
      * rewrite !(words_ws c _ Hc). exact IH.
      * rewrite !(words_nonws c _ Hc). rewrite (ws_start_app r w b Hne Hw). lia.
  - intros w Hw. rewrite wordCount_eq, <- (app_nil_r w), (words_all_ws w [] Hw).
    reflexivity.
  - intros s Hne Hs. rewrite wordCount_eq, (split_ws_no_ws s Hs).
    destruct s; [congruence | reflexivity].
Qed.

Section SearchProofs.
Variable line_match : jstr -> option jstr.

Lemma search_lines_in file i ls m :
  In m (search_lines line_match file i ls) <->
  exists k l mm, nth_error ls k = Some l /\ line_match l = Some mm /\
                 m = mkSearchMatch file (S (i + k)) l mm.
Proof.
  revert i. induction ls as [| l ls IH]; intros i; cbn [search_lines].
  - split; [intros [] |]. intros (k & l & mm & E & _). destruct k; discriminate.
  - assert (Hrest : In m (search_lines line_match file (S i) ls) <->
              exists k l' mm, nth_error (l :: ls) (S k) = Some l' /\
                line_match l' = Some mm /\
                m = mkSearchMatch file (S (i + S k)) l' mm).
    { rewrite IH. split; intros (k & l' & mm & E & Hm & ->);
        exists k, l', mm; cbn [nth_error] in *; repeat split; auto;
        f_equal; lia. }
    destruct (line_match l) as [mm0 |] eqn:Hl.
    + cbn [In]. rewrite Hrest. split.
      * intros [<- | (k & l' & mm & E & Hm & ->)].
        -- exists 0%nat, l, mm0. repeat split; auto. f_equal; lia.
        -- exists (S k), l', mm. auto.
      * intros ([| k] & l' & mm & E & Hm & ->).
        -- cbn in E. injection E as <-. rewrite Hl in Hm. injection Hm as <-.
           left. f_equal; lia.
        -- right. exists k, l', mm. auto.
    + rewrite Hrest. split.
      * intros (k & l' & mm & E & Hm & ->). exists (S k), l', mm. auto.
      * intros ([| k] & l' & mm & E & Hm & ->).
        -- cbn in E. injection E as <-. congruence.
        -- exists k, l', mm. auto.
Qed.

Lemma search_lines_bounds file i ls m :
  In m (search_lines line_match file i ls) ->
  (i < sm_line m <= i + List.length ls)%nat.
Proof.
  intros H. apply search_lines_in in H as (k & l & mm & E & _ & ->).
  cbn [sm_line]. assert (k < List.length ls)%nat
    by (apply nth_error_Some; congruence). lia.
Qed.

Lemma search_lines_sorted file i ls j k mj mk :
  (j < k)%nat ->
  nth_error (search_lines line_match file i ls) j = Some mj ->
  nth_error (search_lines line_match file i ls) k = Some mk ->
  (sm_line mj < sm_line mk)%nat.
Proof.
  revert i j k. induction ls as [| l ls IH]; intros i j k Hjk Hj Hk.
  - destruct j; discriminate.
  - cbn [search_lines] in Hj, Hk. destruct (line_match l) as [mm |].
    + destruct k as [| k]; [lia |]. cbn [nth_error] in Hk.
      destruct j as [| j].
      * cbn in Hj. injection Hj as <-. cbn [sm_line].
        apply nth_error_In, search_lines_bounds in Hk. lia.
      * cbn [nth_error] in Hj. apply (IH (S i) j k); auto; lia.
    + exact (IH (S i) j k Hjk Hj Hk).
Qed.
End SearchProofs.

(** Extra: [searchInFile] reports exactly the lines of the content on
    which the pattern matches, each with its 1-based line number, the line
    and the matched text; the reports come in strictly increasing line
    order, and every line number lies between 1 and the [lineCount] that
    [analyzeTextFile] gives for the same content. *)
Theorem searchInFile_matches (line_match : jstr -> option jstr)
    (file : path) (content : jstr) :
  let lines := js_split_unit NL content in
  let R := searchInFile line_match file content in
  (forall m, In m R <->
     exists k l mm, nth_error lines k = Some l /\ line_match l = Some mm /\
                    m = mkSearchMatch file (S k) l mm) /\
  (forall j k mj mk, (j < k)%nat -> nth_error R j = Some mj ->
     nth_error R k = Some mk -> (sm_line mj < sm_line mk)%nat) /\
  (forall m, In m R ->
     (1 <= sm_line m <= lineCount (analyzeTextFile None None content))%nat).
Proof.
  cbn zeta. unfold searchInFile. split; [| split].
  - intros m. rewrite search_lines_in. reflexivity.
  - intros j k mj mk. apply search_lines_sorted.
  - intros m H. apply search_lines_bounds in H.
    cbn [lineCount analyzeTextFile]. lia.
Qed.

Lemma is_drive_line_spec d :
  is_drive_line d = true <-> exists c, d = [c; 58] /\ 65 <= c <= 90.
Proof.
  destruct d as [| c [| x [| y r]]]; cbn [is_drive_line];
    try (split; [discriminate | intros (c' & E & _); discriminate]).
  rewrite !andb_true_iff, Z.leb_le, Z.leb_le, Z.eqb_eq. split.
  - intros [[H1 H2] ->]. exists c. auto.
  - intros (c' & E & H). injection E as -> ->. lia.
Qed.

Lemma in_skipn1 {A} (x : A) l :
  In x (skipn 1 l) <-> exists k, (1 <= k)%nat /\ nth_error l k = Some x.
Proof.
  destruct l as [| h t]; cbn [skipn].
  - split; [intros [] |]. intros (k & _ & E). destruct k; discriminate.
  - split.
    + intros H. apply In_nth_error in H as (k & E). exists (S k). split; [lia | exact E].
    + intros ([| k] & Hk & E); [lia |]. exact (nth_error_In t k E).
Qed.

(** Extra: [listWindowsDrives] returns no drive on a platform other than
    ["win32"] or when the [wmic] command fails; otherwise it returns
    exactly the trimmed output lines, the first (header) line excepted,
    that consist of one capital letter A-Z followed by a colon. *)
Theorem listWindowsDrives_spec (platform : string) (stdout : option jstr) :
  (String.eqb platform "win32" = false -> listWindowsDrives platform stdout = []) /\
  listWindowsDrives platform None = [] /\
  (forall out d, In d (listWindowsDrives "win32" (Some out)) <->
     (exists c, d = [c; 58] /\ 65 <= c <= 90) /\
     exists k line, (1 <= k)%nat /\ nth_error (js_split_unit NL out) k = Some line /\
                    trim line = d).
Proof.
  split; [| split].
  - intros H. unfold listWindowsDrives. rewrite H. reflexivity.
  - unfold listWindowsDrives. destruct (negb _); reflexivity.
  - intros out d. unfold listWindowsDrives. rewrite String.eqb_refl. cbn [negb].
    rewrite filter_In, in_map_iff, is_drive_line_spec. split.
    + intros [(line & Ht & Hin) Hd]. split; [exact Hd |].
      apply in_skipn1 in Hin as (k & Hk & E). exists k, line. auto.
    + intros [Hd (k & line & Hk & E & Ht)]. split; [| exact Hd].
      exists line. split; [exact Ht |]. apply in_skipn1. exists k. auto.
Qed.

Lemma find_os_watch_close h l : find_os_watch h (os_close h l) = None.
Proof.
  induction l as [| w r IH]; [reflexivity |].
  unfold os_close in *. cbn [filter].
  destruct (Nat.eqb_spec (ow_handle w) h) as [E | Hne]; cbn [negb].
  - exact IH.
  - cbn [find_os_watch]. apply Nat.eqb_neq in Hne. rewrite Hne. exact IH.
Qed.

(** Extra: the watches of a [FileWatcher] are independent: while [p] is
    watched through handle [h], unwatching another path or watching any
    path leaves the events of a notification of [h] unchanged, and
    unwatching [p] itself makes every notification of [h] produce no
    event. *)
Theorem watch_isolation (os_watch_ok : path -> bool -> bool) (st : Watcher)
    (p q : path) (h : handle) (n : Notification) :
  reachable os_watch_ok st -> In (p, h) (watchers st) -> nt_handle n = h ->
  (q <> p -> deliver (unwatchDirectory st q) n = deliver st n) /\
  deliver (unwatchDirectory st p) n = [] /\
  (forall r, deliver (fst (watchDirectory os_watch_ok st q r)) n = deliver st n).
Proof.
  intros Hr Hin Hh.
  pose proof (watcher_inv_reachable os_watch_ok st Hr) as Hinv.
  pose proof Hinv as (Hnd & _ & _ & _ & _).
  rewrite (deliver_registered st p h n Hinv Hin Hh).
  split; [| split].
  - intros Hne.
    assert (Hin' : In (p, h) (watchers (unwatchDirectory st q))).
    { unfold unwatchDirectory.
      destruct (map_get path_eqb q (watchers st)); [| exact Hin].
      cbn [watchers]. apply (map_delete_in path_eqb path_eqb_spec). auto. }
    exact (deliver_registered _ p h n
             (watcher_inv_unwatch st q Hinv) Hin' Hh).
  - unfold unwatchDirectory.
    rewrite (in_map_get path_eqb path_eqb_spec p h _ Hnd Hin).
    unfold deliver. cbn [os_open]. rewrite Hh, find_os_watch_close. reflexivity.
  - intros r. pose proof (watcher_inv_watch os_watch_ok st q r Hinv) as Hinv'.
    unfold watchDirectory in *.
    destruct (map_has path_eqb q (watchers st)) eqn:Hhas;
      [exact (deliver_registered st p h n Hinv Hin Hh) |].
    destruct (os_watch_ok q r); [| exact (deliver_registered st p h n Hinv Hin Hh)].
    apply (deliver_registered _ p h n Hinv'); [| exact Hh].
    cbn [fst watchers]. apply (map_get_in path_eqb path_eqb_spec).
    rewrite (map_get_set_neq path_eqb path_eqb_spec).
    + exact (in_map_get path_eqb path_eqb_spec p h _ Hnd Hin).
    + intros E. subst q. apply (in_map fst) in Hin. cbn [fst] in Hin.
      apply map_has_keys in Hin. congruence.
Qed.




(* ------------------------------------------------------------------ *)
(** ** Instances of the further properties on concrete inputs *)

Lemma make_executable_reports_witness :
  0 <= 33188 < 2 ^ 31 /\
  make_executable_handler (mkChmodCtx false true false false false) (Some 33188) =
    Some (Z.land (Z.lor 33188 73) (Z.lnot 1024),
          with_execute (modeToPermissions 33188)).
Proof.
  assert (H : 0 <= 33188 < 2 ^ 31) by lia.
  split; [exact H |].
  exact (proj1 (proj2 (make_executable_reports
                         (mkChmodCtx false true false false false) 33188 H)) eq_refl).
Defined.

Lemma getFileStats_mode_digits_witness :
  64 <= 33188 /\
  let P := modeToPermissions 33188 in
  getFileStats_mode 33188 =
    [48 + perm_digit (owner P); 48 + perm_digit (group P);
     48 + perm_digit (others P)].
Proof.
  split; [lia |]. apply (getFileStats_mode_digits 33188). lia.
Defined.

Lemma analyzeTextFile_wordCount_witness :
  [32] <> [] /\ forallb is_ws [32] = true /\
  wordCount (analyzeTextFile None None ([104; 105] ++ [32] ++ [121; 111])) =
  Nat.add (wordCount (analyzeTextFile None None [104; 105]))
          (wordCount (analyzeTextFile None None [121; 111])).
Proof.
  split; [discriminate |]. split; [reflexivity |].
  apply (analyzeTextFile_wordCount None None); [discriminate | reflexivity].
Defined.

Lemma listWindowsDrives_spec_witness :
  String.eqb "linux" "win32" = false /\
  listWindowsDrives "linux" (Some [67; 58]) = [].
Proof.
  split; [reflexivity |].
  exact (proj1 (listWindowsDrives_spec "linux" (Some [67; 58])) eq_refl).
Defined.

Lemma watch_isolation_witness :
  let ok := fun (_ : path) (_ : bool) => true in
  let st := fst (watchDirectory ok new_watcher ["tmp"%string] false) in
  let n := mkNotification 0%nat Change (Some "a.txt"%string) 5 in
  reachable ok st /\ In (["tmp"%string], 0%nat) (watchers st) /\
  nt_handle n = 0%nat /\
  deliver (unwatchDirectory st ["tmp"%string]) n = [].
Proof.
  intros ok st n.
  assert (Hr : reachable ok st) by (apply reach_watch, reach_new).
  assert (Hin : In (["tmp"%string], 0%nat) (watchers st)) by (left; reflexivity).
  split; [exact Hr |]. split; [exact Hin |]. split; [reflexivity |].
  apply (watch_isolation ok st ["tmp"%string] ["other"%string] 0%nat n Hr Hin).
  reflexivity.
Defined.

